(** * Profile card of clash-nyanpasu: [profile-item.tsx]

    A shallow embedding of the logic of
    [frontend/nyanpasu/src/components/profiles/profile-item.tsx]:

    - [calc], the traffic computation, on IEEE binary64 numbers (the JS
      [number] type), as primitive floats;
    - the three guarded handlers [handleSelect], [handleUpdate] and
      [handleDelete], written in a small monad of asynchronous programs
      with [try]/[catch]/[finally], run by an event loop ([step]) whose
      events are the user's gestures and the settlements of the promises
      the handlers await;
    - the [TextCarousel] component as a transition system over its index
      and its interval timers.

    JavaScript runs one task at a time. A step of the event loop is one
    such task: an event handler, or the continuation of a handler whose
    awaited promise has settled, runs up to the next [await] on a
    collaborator's promise; the microtasks in between belong to the step.
    State setters of React are taken to write at once, since no handler
    reads the state it set. *)

From Stdlib Require Import Floats.PrimFloat.
From Stdlib Require Import String Ascii Bool Arith Lia.
From stdpp Require Import base option list.

Local Open Scope string_scope.
Local Open Scope list_scope.

(** ** JavaScript values that the handlers inspect *)

(** A value caught by [catch (err)]: an [Error] instance with its [name]
    and [message], or anything else, given by what [String(err)] returns. *)
Inductive jsval : Type :=
| JsError (name message : string)
| JsOther (repr : string).

(** [err instanceof Error] *)
Definition instanceof_Error (err : jsval) : bool :=
  match err with JsError _ _ => true | JsOther _ => false end.

(** [err.name], read only when [err] is an [Error]. *)
Definition error_name (err : jsval) : string :=
  match err with JsError n _ => n | JsOther _ => "" end.

(** [err instanceof Error ? err.message : String(err)] *)
Definition error_text (err : jsval) : string :=
  match err with JsError _ m => m | JsOther r => r end.

(** How an awaited promise settles. *)
Inductive outcome : Type :=
| Resolved
| Rejected (err : jsval).

(** ** Data model: [Profile.Item] and [Profile.Option] *)

(** Objects live in a heap and are named by their location, so that two
    variables can hold the same object. *)
Abbreviation loc := nat (only parsing).

Module Profile.

(** Modelled from the spec: the declaration of [Profile.Option] lives in
    the [@nyanpasu/interface] package; section 3 of the specification
    gives its two fields, [{withProxy: bool, selfProxy: bool}], which the
    source spells [with_proxy] and [self_proxy]. *)
Record Option : Type := mkOption { with_proxy : bool; self_proxy : bool }.

(** [item.extra]: the usage counters of a subscription. *)
Record Extra : Type := mkExtra {
  download : float;
  upload : float;
  total : float;
  expire : float;
}.

Inductive Type_ : Type := remote | local.

(** The fields of [Profile.Item] that the component reads. [option] holds
    a reference to the option object, when there is one. *)
Record Item : Type := mkItem {
  uid : string;
  type : Type_;
  updated : option float;
  extra : option Extra;
  option : Datatypes.option loc;
}.

End Profile.

(** ** Traffic calculator *)

Module Traffic.

Record t : Type := mk { progress : float; total : float; used : float }.

(** [calc], lines 63-79. [if (item.extra)] tests an object, which is
    truthy whenever it is present. *)
Definition calc (item : Profile.Item) : t :=
  match Profile.extra item with
  | Some e =>
      let total := Profile.total e in
      let used := (Profile.download e + Profile.upload e)%float in
      let progress := (used / total * 100)%float in
      {| progress := progress; total := total; used := used |}
  | None => {| progress := 0%float; total := 0%float; used := 0%float |}
  end.

(** The number printed next to the bar, line 258:
    [((used / total) * 100).toFixed(2)], before formatting. *)
Definition percent_label (item : Profile.Item) : float :=
  let r := calc item in (used r / total r * 100)%float.

(** [Number.isFinite]: neither NaN nor an infinity. *)
Definition is_finite (x : float) : bool :=
  negb (PrimFloat.is_nan x) && negb (PrimFloat.is_infinity x).

End Traffic.

Definition item_with (e : option Profile.Extra) : Profile.Item :=
  {| Profile.uid := "p1"; Profile.type := Profile.remote;
     Profile.updated := None; Profile.extra := e; Profile.option := None |}.

Definition usage (d u t : float) : Profile.Extra :=
  {| Profile.download := d; Profile.upload := u; Profile.total := t;
     Profile.expire := 0%float |}.

(** ** Rotating display: [TextCarousel] *)

Module TextCarousel.

(** The values that [index] takes: it starts at [0], and
    [(i + 1) % nodes.length] of a natural number is a natural number, or
    [NaN] when [nodes.length] is [0]; [NaN + 1] and [NaN % n] are [NaN]. *)
Inductive num : Type := Int (n : nat) | NaN.

(** [(i + 1) % len] *)
Definition succ_mod (i : num) (len : nat) : num :=
  match i with
  | Int n => if Nat.eqb len 0 then NaN else Int ((n + 1) mod len)
  | NaN => NaN
  end.

(** [Object.is], by which React decides whether a state changed. *)
Definition Object_is (a b : num) : bool :=
  match a, b with
  | Int x, Int y => Nat.eqb x y
  | NaN, NaN => true
  | _, _ => false
  end.

(** [i == index] for an array position [i]. *)
Definition loose_eq (i : nat) (index : num) : bool :=
  match index with Int n => Nat.eqb i n | NaN => false end.

(** A node of [props.nodes] is [false] ([None]) or an element, named by
    its translation key. The component keeps its index, the handle of
    the interval that its current effect armed, and the environment
    keeps the set of armed intervals. *)
Record state : Type := mkState {
  props_nodes : list (option string);
  index : num;
  mounted : bool;
  timer : option nat;
  intervals : list nat;
  next_handle : nat;
}.

(** [props.nodes.filter((item) => !!item)] *)
Definition nodes (s : state) : list string := omap id (props_nodes s).

(** The children of [AnimatePresence]: the nodes at the position
    [index]. *)
Definition render (s : state) : list string :=
  omap id (imap (fun i node => if loose_eq i (index s) then Some node else None)
                (nodes s)).

(** [clearInterval] *)
Definition clearInterval (h : option nat) (l : list nat) : list nat :=
  match h with
  | Some x => List.filter (fun y => negb (Nat.eqb x y)) l
  | None => l
  end.

(** The effect of lines 365-370: its cleanup clears the interval of the
    previous run, and its body arms a new one. *)
Definition run_effect (s : state) : state :=
  mkState (props_nodes s) (index s) (mounted s)
          (Some (next_handle s))
          (clearInterval (timer s) (intervals s) ++ [next_handle s])
          (S (next_handle s)).

(** First render: [useState(0)], then the effect. *)
Definition mount (ns : list (option string)) : state :=
  run_effect (mkState ns (Int 0) true None [] 0).

(** [nextNode]: [setIndex((i) => (i + 1) % nodes.length)]. A state that
    is the same by [Object.is] does not re-render; a new index does, and
    [index] is a dependency of the effect. *)
Definition nextNode (s : state) : state :=
  let i := succ_mod (index s) (length (nodes s)) in
  if negb (mounted s) || Object_is i (index s) then s
  else run_effect (mkState (props_nodes s) i (mounted s) (timer s)
                           (intervals s) (next_handle s)).

Inductive event : Type :=
| Tick (h : nat)                        (* 5000 ms of the interval [h] elapsed *)
| Click                                 (* [onClick] of the container *)
| Render (ns : list (option string))    (* the parent passes new nodes *)
| Unmount.

Definition step (s : state) (ev : event) : state :=
  match ev with
  | Tick h =>
      if existsb (Nat.eqb h) (intervals s) then nextNode s else s
  | Click => nextNode s
  | Render ns =>
      mkState ns (index s) (mounted s) (timer s) (intervals s) (next_handle s)
  | Unmount =>
      mkState (props_nodes s) (index s) false None
              (clearInterval (timer s) (intervals s)) (next_handle s)
  end.

Definition exec (s : state) (evs : list event) : state := fold_left step evs s.

(** While the component is mounted, the interval of its current effect is
    the one armed interval; unmounted, none is. *)
Definition one_timer (s : state) : Prop :=
  if mounted s then exists h, timer s = Some h /\ intervals s = [h]
  else timer s = None /\ intervals s = [].

(** Truthiness of a JS number: [0], [-0] and [NaN] are falsy. *)
Definition truthy (x : float) : bool :=
  negb (PrimFloat.eqb x 0 || PrimFloat.is_nan x).

(** The [nodes] prop built at lines 227-237:
    [!!item.updated && <TimeSpan .../>] and
    [!!item.extra?.expire && <TimeSpan .../>]. *)
Definition nodes_of (item : Profile.Item) : list (option string) :=
  [ match Profile.updated item with
    | Some ts => if truthy ts then Some "Subscription Updated At" else None
    | None => None
    end;
    match Profile.extra item with
    | Some e => if truthy (Profile.expire e) then Some "Subscription Expires In" else None
    | None => None
    end ].

End TextCarousel.

(** ** The card's mutable state *)

(** [useSetState({ update: false, card: false })] *)
Record Loading : Type := mkLoading { update : bool; card : bool }.

(** The three [useLockFn] wrappers each own a [lockRef]. *)
Inductive lockref : Type := LockSelect | LockUpdate | LockDelete.

(** Everything a handler can read or write: the lock references, the
    hook states of the component ([loading], [anchorEl], [open]) and the
    heap of option objects. *)
Record store : Type := mkStore {
  lockSelect : bool;
  lockUpdate : bool;
  lockDelete : bool;
  loading : Loading;
  anchorEl : option nat;
  open : bool;
  heap : list Profile.Option;
}.

Definition lock_current (r : lockref) (s : store) : bool :=
  match r with
  | LockSelect => lockSelect s
  | LockUpdate => lockUpdate s
  | LockDelete => lockDelete s
  end.

Definition set_lock (r : lockref) (b : bool) (s : store) : store :=
  match r with
  | LockSelect => mkStore b (lockUpdate s) (lockDelete s) (loading s) (anchorEl s) (open s) (heap s)
  | LockUpdate => mkStore (lockSelect s) b (lockDelete s) (loading s) (anchorEl s) (open s) (heap s)
  | LockDelete => mkStore (lockSelect s) (lockUpdate s) b (loading s) (anchorEl s) (open s) (heap s)
  end.

Definition set_loading (f : Loading -> Loading) (s : store) : store :=
  mkStore (lockSelect s) (lockUpdate s) (lockDelete s) (f (loading s))
          (anchorEl s) (open s) (heap s).

Definition set_anchorEl (a : option nat) (s : store) : store :=
  mkStore (lockSelect s) (lockUpdate s) (lockDelete s) (loading s) a (open s) (heap s).

Definition set_open (b : bool) (s : store) : store :=
  mkStore (lockSelect s) (lockUpdate s) (lockDelete s) (loading s) (anchorEl s) b (heap s).

Definition set_heap (h : list Profile.Option) (s : store) : store :=
  mkStore (lockSelect s) (lockUpdate s) (lockDelete s) (loading s)
          (anchorEl s) (open s) h.

(** ** Collaborator calls *)

(** The operations of [useClash()], the notification helper and the
    [onClickChains] callback. [updateProfile] is recorded with the contents
    of the option object at the time of the call. *)
Inductive call : Type :=
| setProfilesConfig (current : string)
| deleteConnections
| updateProfile (uid : string) (options : Profile.Option)
| deleteProfile (uid : string)
| viewProfile (uid : string)
| onClickChains (uid : string)
| message (text title type : string).

(** ** Asynchronous programs *)

(** The body of an [async] function: it returns, throws, reads or writes
    the store, calls a collaborator without waiting for it ([Fire]), or
    awaits the promise of a collaborator call ([Await]) and goes on with
    the way it settled. *)
Inductive prog (A : Type) : Type :=
| Ret (a : A)
| Throw (err : jsval)
| Get (k : store -> prog A)
| Put (f : store -> store) (k : prog A)
| Fire (c : call) (k : prog A)
| Await (c : call) (k : outcome -> prog A).

Arguments Ret {A} a.
Arguments Throw {A} err.
Arguments Get {A} k.
Arguments Put {A} f k.
Arguments Fire {A} c k.
Arguments Await {A} c k.

Fixpoint bind {A B : Type} (p : prog A) (f : A -> prog B) : prog B :=
  match p with
  | Ret a => f a
  | Throw e => Throw e
  | Get k => Get (fun s => bind (k s) f)
  | Put g k => Put g (bind k f)
  | Fire c k => Fire c (bind k f)
  | Await c k => Await c (fun o => bind (k o) f)
  end.

Declare Scope prog_scope.
Delimit Scope prog_scope with prog.
Bind Scope prog_scope with prog.
Notation "'let*' x ':=' p 'in' q" := (bind p (fun x => q))
  (at level 10, x name, p at level 100, q at level 200) : prog_scope.
Notation "p ';;' q" := (bind p (fun _ => q))
  (at level 100, q at level 200, right associativity) : prog_scope.

(** [try { p } catch (err) { h err }] *)
Fixpoint try_catch {A : Type} (p : prog A) (h : jsval -> prog A) : prog A :=
  match p with
  | Ret a => Ret a
  | Throw e => h e
  | Get k => Get (fun s => try_catch (k s) h)
  | Put g k => Put g (try_catch k h)
  | Fire c k => Fire c (try_catch k h)
  | Await c k => Await c (fun o => try_catch (k o) h)
  end.

(** [try { p } finally { fin }]: [fin] runs on both exits, and the result
    or the exception of [p] is kept unless [fin] itself throws. *)
Fixpoint try_finally {A : Type} (p : prog A) (fin : prog unit) : prog A :=
  match p with
  | Ret a => bind fin (fun _ => Ret a)
  | Throw e => bind fin (fun _ => Throw e)
  | Get k => Get (fun s => try_finally (k s) fin)
  | Put g k => Put g (try_finally k fin)
  | Fire c k => Fire c (try_finally k fin)
  | Await c k => Await c (fun o => try_finally (k o) fin)
  end.

(** [await c] for a collaborator call [c]: a rejection is thrown. *)
Definition await (c : call) : prog unit :=
  Await c (fun o => match o with Resolved => Ret tt | Rejected e => Throw e end).

Definition fire (c : call) : prog unit := Fire c (Ret tt).
Definition modify (f : store -> store) : prog unit := Put f (Ret tt).

(** Modelled from the spec: [useLockFn] is imported from the [ahooks]
    package, which is not part of the repository. Section 4.2 of the
    specification gives its contract: while an invocation is in flight a
    new trigger is dropped, not queued, and the lock is released when the
    invocation completes, whether it succeeds or fails. This is also what
    the package does:
    [if (lockRef.current) return; lockRef.current = true;
     try { return await fn(...args) } catch (e) { throw e }
     finally { lockRef.current = false }]. *)
Definition useLockFn (r : lockref) (fn : prog unit) : prog unit :=
  Get (fun s =>
    if lock_current r s then Ret tt
    else
      Put (set_lock r true)
        (try_finally (try_catch fn (fun e => Throw e))
                     (modify (set_lock r false)))).

(** ** Heap access *)

(** A new object literal. *)
Definition alloc (o : Profile.Option) : prog loc :=
  Get (fun s => Put (set_heap (heap s ++ [o])) (Ret (length (heap s)))).

(** Reading through a reference. References are created by [alloc] or come
    with the item, so the lookup succeeds in every state the card reaches
    (see [wf_heap]); the other branch stands for JS's [TypeError]. *)
Definition deref (l : loc) : prog Profile.Option :=
  Get (fun s =>
    match heap s !! l with
    | Some o => Ret o
    | None => Throw (JsError "TypeError" "")
    end).

(** [options.with_proxy = b] and [options.self_proxy = b] for the object
    at [l]. *)
Definition assign_with_proxy (l : loc) (b : bool) : prog unit :=
  modify (fun s =>
    set_heap (alter (fun o => Profile.mkOption b (Profile.self_proxy o)) l (heap s)) s).

Definition assign_self_proxy (l : loc) (b : bool) : prog unit :=
  modify (fun s =>
    set_heap (alter (fun o => Profile.mkOption (Profile.with_proxy o) b) l (heap s)) s).

(** ** The component *)

(** The props that the handlers close over. *)
Record Props : Type := mkProps { item : Profile.Item; selected : bool }.

(** The keys of [menuMapping], in the order of the object literal. *)
Inductive menu_key : Type :=
| Select | Edit_Info | Proxy_Chains | Open_File | Update | Update_Proxy | Delete.

Definition nl : string := String (ascii_of_nat 10) EmptyString.

(** A translation that returns its key, and a [JSON.stringify] that
    returns the text of the error, to run the card on examples. *)
Definition t0 (key : string) (params : list (string * string)) : string := key.
Definition js0 (err : jsval) : string := error_text err.

Section ProfileItem.

(** [t] of [useTranslation()], with the interpolation parameters, and
    [JSON.stringify] on a caught value. *)
Variable t : string -> list (string * string) -> string.
Variable JSON_stringify : jsval -> string.

Definition setLoading_card (b : bool) : prog unit :=
  modify (set_loading (fun l => mkLoading (update l) b)).

Definition setLoading_update (b : bool) : prog unit :=
  modify (set_loading (fun l => mkLoading b (card l))).

Definition setAnchorEl (a : option nat) : prog unit := modify (set_anchorEl a).
Definition setOpen (b : bool) : prog unit := modify (set_open b).

(** The argument of [message] in the [catch] of [handleSelect],
    lines 111-117. *)
Definition select_error_text (err : jsval) : string :=
  let is_fetch_error :=
    instanceof_Error err && String.eqb (error_name err) "FetchError" in
  if is_fetch_error
  then t "FetchError" [("content", t "Subscription" [])]
  else ("Error setting profile: " ++ nl ++ " " ++ error_text err)%string.

(** [handleSelect], lines 99-126. *)
Definition handleSelect (p : Props) : prog unit :=
  useLockFn LockSelect
    (if selected p then Ret tt
     else
       try_finally
         (try_catch
            (setLoading_card true;;
             await (setProfilesConfig (Profile.uid (item p)));;
             await deleteConnections)
            (fun err =>
               fire (message (select_error_text err) (t "Error" []) "error")))
         (setLoading_card false))%prog.

(** [item.option?.self_proxy], as a condition. *)
Definition item_self_proxy (p : Props) : prog bool :=
  match Profile.option (item p) with
  | Some l => (let* o := deref l in Ret (Profile.self_proxy o))%prog
  | None => Ret false
  end.

(** [handleUpdate], lines 128-151. [item.option || {...}] is the option
    object of the item itself when there is one, and a new object
    otherwise; the assignments write to whichever object [options]
    names. *)
Definition handleUpdate (p : Props) (proxy : bool) : prog unit :=
  useLockFn LockUpdate
    (let* options :=
       match Profile.option (item p) with
       | Some l => Ret l
       | None => alloc (Profile.mkOption false false)
       end in
     (if proxy then
        let* sp := item_self_proxy p in
        if sp then
          (assign_with_proxy options false;;
           assign_self_proxy options true)
        else
          (assign_with_proxy options true;;
           assign_self_proxy options false)
      else Ret tt);;
     try_finally
       (setLoading_update true;;
        let* o := deref options in
        await (updateProfile (Profile.uid (item p)) o))
       (setLoading_update false))%prog.

(** [handleDelete], lines 153-162. *)
Definition handleDelete (p : Props) : prog unit :=
  useLockFn LockDelete
    (try_catch
       (await (deleteProfile (Profile.uid (item p))))
       (fun err =>
          fire (message ("Delete failed: " ++ nl ++ " " ++ JSON_stringify err)%string
                        (t "Error" []) "error"))).

(** [menuMapping], lines 89-97. The entry Open File calls [viewProfile]
    and drops its promise; what becomes of that promise is not an event of
    the model below. *)
Definition menuMapping (p : Props) (key : menu_key) : prog unit :=
  match key with
  | Select => handleSelect p
  | Edit_Info => setOpen true
  | Proxy_Chains => fire (onClickChains (Profile.uid (item p)))
  | Open_File => fire (viewProfile (Profile.uid (item p)))
  | Update => handleUpdate p false
  | Update_Proxy => handleUpdate p true
  | Delete => handleDelete p
  end.

(** [handleClick] of [MenuComp], lines 165-168. *)
Definition handleClick (func : prog unit) : prog unit :=
  (setAnchorEl None;; func)%prog.

(** *** The event loop *)

(** What the card does to the outside, in order: a collaborator call
    whose promise is awaited, a call that is not waited for, and the
    settlement of an awaited promise. *)
Inductive entry : Type :=
| Invoked (pid : nat) (c : call)
| Called (c : call)
| Settled (pid : nat) (o : outcome).

(** A handler suspended at an [await]. *)
Record task : Type := mkTask {
  task_pid : nat;
  task_call : call;
  task_k : outcome -> prog unit;
}.

Record machine : Type := mkMachine {
  props : Props;
  st : store;
  log : list entry;
  pending : list task;
  next_pid : nat;
  unhandled : list jsval;
}.

(** Runs a handler up to its next [await] or to its end. An exception
    that leaves the handler rejects a promise nobody listens to. *)
Fixpoint run (p : prog unit) (m : machine) : machine :=
  match p with
  | Ret _ => m
  | Throw e =>
      mkMachine (props m) (st m) (log m) (pending m) (next_pid m)
                (unhandled m ++ [e])
  | Get k => run (k (st m)) m
  | Put f k =>
      run k (mkMachine (props m) (f (st m)) (log m) (pending m)
                       (next_pid m) (unhandled m))
  | Fire c k =>
      run k (mkMachine (props m) (st m) (log m ++ [Called c]) (pending m)
                       (next_pid m) (unhandled m))
  | Await c k =>
      mkMachine (props m) (st m)
                (log m ++ [Invoked (next_pid m) c])
                (pending m ++ [mkTask (next_pid m) c k])
                (S (next_pid m)) (unhandled m)
  end.

Definition find_task (pid : nat) (ts : list task) : option task :=
  List.find (fun tk => Nat.eqb (task_pid tk) pid) ts.

Definition remove_task (pid : nat) (ts : list task) : list task :=
  List.filter (fun tk => negb (Nat.eqb (task_pid tk) pid)) ts.

(** The user's gestures, the re-renders by the parent, and the
    settlements of awaited promises. The update button and the card are
    taken to be clickable at all times, also while their spinner or
    overlay shows. *)
Inductive event : Type :=
| ClickCard
| ClickChains
| ClickUpdate
| ClickMenu (el : nat)
| CloseMenu
| ClickMenuItem (key : menu_key)
| CloseDialog
| RenderSelected (b : bool)
| RenderItem (it : Profile.Item) (o : option Profile.Option)
| Settle (pid : nat) (o : outcome).

(** A new record from the backend: its option object, when it has one,
    is a new object. *)
Definition load_item (it : Profile.Item) (o : option Profile.Option)
    (m : machine) : machine :=
  let it' := Profile.mkItem (Profile.uid it) (Profile.type it)
               (Profile.updated it) (Profile.extra it)
               (match o with Some _ => Some (length (heap (st m))) | None => None end) in
  let h' := match o with Some v => heap (st m) ++ [v] | None => heap (st m) end in
  mkMachine (mkProps it' (selected (props m))) (set_heap h' (st m))
            (log m) (pending m) (next_pid m) (unhandled m).

Definition step (m : machine) (ev : event) : machine :=
  match ev with
  | ClickCard => run (handleSelect (props m)) m
  | ClickChains => run (fire (onClickChains (Profile.uid (item (props m))))) m
  | ClickUpdate => run (menuMapping (props m) Update) m
  | ClickMenu el => run (setAnchorEl (Some el)) m
  | CloseMenu => run (setAnchorEl None) m
  | ClickMenuItem key => run (handleClick (menuMapping (props m) key)) m
  | CloseDialog => run (setOpen false) m
  | RenderSelected b =>
      mkMachine (mkProps (item (props m)) b) (st m) (log m) (pending m)
                (next_pid m) (unhandled m)
  | RenderItem it o => load_item it o m
  | Settle pid o =>
      match find_task pid (pending m) with
      | Some tk =>
          run (task_k tk o)
              (mkMachine (props m) (st m) (log m ++ [Settled pid o])
                         (remove_task pid (pending m)) (next_pid m)
                         (unhandled m))
      | None => m
      end
  end.

Definition exec (m : machine) (evs : list event) : machine :=
  fold_left step evs m.

(** The card as mounted: nothing is locked, loading or open. *)
Definition init_store : store :=
  mkStore false false false (mkLoading false false) None false [].

Definition mount (it : Profile.Item) (o : option Profile.Option)
    (sel : bool) : machine :=
  load_item it o (mkMachine (mkProps it sel) init_store [] [] 0 []).

(** *** Observations *)

Definition is_select_call (c : call) : bool :=
  match c with setProfilesConfig _ | deleteConnections => true | _ => false end.
Definition is_update_call (c : call) : bool :=
  match c with updateProfile _ _ => true | _ => false end.
Definition is_delete_call (c : call) : bool :=
  match c with deleteProfile _ => true | _ => false end.
Definition is_message (c : call) : bool :=
  match c with message _ _ _ => true | _ => false end.

Definition count (kind : call -> bool) (ts : list task) : nat :=
  length (List.filter (fun tk => kind (task_call tk)) ts).

(** The number of awaited calls of a kind that have not settled. *)
Definition in_flight (kind : call -> bool) (m : machine) : nat :=
  count kind (pending m).

(** The awaited calls in the log, and the notifications. *)
Definition invocations (l : list entry) : list call :=
  omap (fun e => match e with Invoked _ c => Some c | _ => None end) l.

Definition messages (l : list entry) : list call :=
  omap (fun e => match e with
                 | Called c => if is_message c then Some c else None
                 | _ => None
                 end) l.

(** *** The suspended handlers *)

(** [wrap_select q] is the rest [q] of the body of [handleSelect] inside
    its [try]/[catch]/[finally] and inside the wrapper of [useLockFn]. *)
Definition wrap_select (q : prog unit) : prog unit :=
  try_finally
    (try_catch
       (try_finally
          (try_catch q
             (fun err =>
                fire (message (select_error_text err) (t "Error" []) "error")))
          (setLoading_card false))
       (fun e => Throw e))
    (modify (set_lock LockSelect false)).

Definition wrap_update (q : prog unit) : prog unit :=
  try_finally
    (try_catch (try_finally q (setLoading_update false)) (fun e => Throw e))
    (modify (set_lock LockUpdate false)).

Definition wrap_delete (q : prog unit) : prog unit :=
  try_finally
    (try_catch
       (try_catch q
          (fun err =>
             fire (message ("Delete failed: " ++ nl ++ " " ++ JSON_stringify err)%string
                           (t "Error" []) "error")))
       (fun e => Throw e))
    (modify (set_lock LockDelete false)).

(** The value of [await] once the promise has settled. *)
Definition settled (o : outcome) : prog unit :=
  match o with Resolved => Ret tt | Rejected e => Throw e end.

(** What a handler that awaits the call [c] does when it is resumed. *)
Definition resume (c : call) (o : outcome) : prog unit :=
  match c with
  | setProfilesConfig _ => wrap_select (settled o;; await deleteConnections)%prog
  | deleteConnections => wrap_select (settled o)
  | updateProfile _ _ => wrap_update (settled o)
  | deleteProfile _ => wrap_delete (settled o)
  | _ => Ret tt
  end.

Definition awaited (c : call) : bool :=
  is_select_call c || is_update_call c || is_delete_call c.

Definition bool_to_nat (b : bool) : nat := if b then 1 else 0.

(** The option object of the item is on the heap. *)
Definition wf_heap (m : machine) : Prop :=
  forall l, Profile.option (item (props m)) = Some l -> l < length (heap (st m)).

(** In the log, an invocation of [deleteConnections] comes right after
    the successful settlement of a [setProfilesConfig] that was invoked
    before. *)
Definition sequential (l : list entry) : Prop :=
  forall j q, l !! j = Some (Invoked q deleteConnections) ->
    exists j' p u i,
      j = S j' /\ l !! j' = Some (Settled p Resolved) /\
      i < j' /\ l !! i = Some (Invoked p (setProfilesConfig u)).

(** A suspended handler awaits one of the four awaited calls, resumes as
    the source says, and its call is in the log under its promise. *)
Definition task_ok (n : nat) (l : list entry) (tk : task) : Prop :=
  awaited (task_call tk) = true /\
  (forall o, task_k tk o = resume (task_call tk) o) /\
  task_pid tk < n /\
  exists i, l !! i = Some (Invoked (task_pid tk) (task_call tk)).

(** The invariant of the event loop: the suspended handlers are in
    order and their promises distinct; a lock is held exactly while a
    call of its handler is in flight, and then exactly one is; the
    loading flags follow the locks of select and update. *)
Record Inv (m : machine) : Prop := mkInv {
  inv_tasks : Forall (task_ok (next_pid m) (log m)) (pending m);
  inv_nodup : List.NoDup (List.map task_pid (pending m));
  inv_select : count is_select_call (pending m) = bool_to_nat (lockSelect (st m));
  inv_update : count is_update_call (pending m) = bool_to_nat (lockUpdate (st m));
  inv_delete : count is_delete_call (pending m) = bool_to_nat (lockDelete (st m));
  inv_card : card (loading (st m)) = lockSelect (st m);
  inv_loading_update : update (loading (st m)) = lockUpdate (st m);
  inv_heap : wf_heap m;
  inv_sequential : sequential (log m);
}.

(** The card after any sequence of events since it was mounted. *)
Definition reachable (m : machine) : Prop :=
  exists it o sel evs, m = exec (mount it o sel) evs.


(** *** The effective options, as the specification words them *)

(** The option object that the item's record holds now. *)
Definition stored (m : machine) : option Profile.Option :=
  match Profile.option (item (props m)) with
  | Some l => heap (st m) !! l
  | None => None
  end.

(** Section 4.3, Update: start from the stored options, or from the
    default when there are none; via proxy, keep self-proxy when it was
    set and switch to with-proxy otherwise. *)
Definition resolve_options (o : option Profile.Option) (proxy : bool)
    : Profile.Option :=
  let start := default (Profile.mkOption false false) o in
  if proxy then
    if Profile.self_proxy start then Profile.mkOption false true
    else Profile.mkOption true false
  else start.

(** The heap once an update has resolved its options: the object that
    [options] names holds them. *)
Definition heap_after_update (m : machine) (proxy : bool)
    : list Profile.Option :=
  match Profile.option (item (props m)) with
  | Some l =>
      if proxy then <[l := resolve_options (stored m) proxy]> (heap (st m))
      else heap (st m)
  | None => heap (st m) ++ [resolve_options None proxy]
  end.

(** The three guarded actions of section 4.3, and the collaborator
    calls that each awaits. *)
Inductive guarded : Type := Selecting | Updating | Deleting.

Definition calls_of (a : guarded) : call -> bool :=
  match a with
  | Selecting => is_select_call
  | Updating => is_update_call
  | Deleting => is_delete_call
  end.

(** The guarded action that an event triggers. *)
Definition trigger_of (ev : event) : option guarded :=
  match ev with
  | ClickCard | ClickMenuItem Select => Some Selecting
  | ClickUpdate | ClickMenuItem Update | ClickMenuItem Update_Proxy =>
      Some Updating
  | ClickMenuItem Delete => Some Deleting
  | _ => None
  end.

(** Whether the settlement [o] of the call [c] ends the handler that
    awaits it: [handleSelect] goes on to [deleteConnections] when
    [setProfilesConfig] resolves. *)
Definition finishes (c : call) (o : outcome) : bool :=
  match c, o with
  | setProfilesConfig _, Resolved => false
  | _, _ => true
  end.

(** What a click on a menu entry does before it calls the entry's
    function: it closes the menu. *)
Definition dismiss (ev : event) (m : machine) : machine :=
  match ev with
  | ClickMenuItem _ => run (setAnchorEl None) m
  | _ => m
  end.


(** *** Cards to run the component on *)

(** A remote profile without usage data that stores the options
    [{false, false}], not selected and selected. *)
Definition card0 : machine :=
  mount (item_with None) (Some (Profile.mkOption false false)) false.

Definition card_selected : machine :=
  mount (item_with None) (Some (Profile.mkOption false false)) true.

(** The card after a click on it, and after a click on its update
    button. *)
Definition card_selecting : machine := exec card0 [ClickCard].
Definition card_updating : machine := exec card0 [ClickUpdate].

(** *** Lists of suspended handlers *)

Lemma count_app kind ts1 ts2 :
  count kind (ts1 ++ ts2) = count kind ts1 + count kind ts2.
Proof. unfold count. rewrite List.filter_app, length_app. reflexivity. Qed.

Lemma count_cons kind a ts :
  count kind (a :: ts) = bool_to_nat (kind (task_call a)) + count kind ts.
Proof. unfold count. cbn. destruct (kind (task_call a)); reflexivity. Qed.

Lemma remove_task_cons pid a ts :
  remove_task pid (a :: ts)
  = if Nat.eqb (task_pid a) pid then remove_task pid ts
    else a :: remove_task pid ts.
Proof. unfold remove_task. cbn. destruct (Nat.eqb (task_pid a) pid); reflexivity. Qed.

Lemma find_task_Some pid ts tk :
  find_task pid ts = Some tk -> In tk ts /\ task_pid tk = pid.
Proof.
  unfold find_task. intros H. apply List.find_some in H as [Hin Hpid].
  split; [exact Hin | now apply Nat.eqb_eq].
Qed.

Lemma find_task_In pid ts tk :
  List.NoDup (List.map task_pid ts) -> In tk ts -> task_pid tk = pid ->
  find_task pid ts = Some tk.
Proof.
  unfold find_task.
  induction ts as [|a ts IH]; cbn; intros Hnd Hin Hpid; [contradiction|].
  inversion Hnd as [|? ? Hna Hnd']; subst.
  destruct Hin as [->|Hin].
  - now rewrite Nat.eqb_refl.
  - destruct (Nat.eqb_spec (task_pid a) (task_pid tk)) as [E|E].
    + exfalso. apply Hna. rewrite E. now apply in_map.
    + now apply IH.
Qed.

Lemma remove_task_fresh pid ts :
  ~ In pid (List.map task_pid ts) -> remove_task pid ts = ts.
Proof.
  induction ts as [|a ts IH]; intros Hn; [reflexivity|].
  rewrite remove_task_cons.
  destruct (Nat.eqb_spec (task_pid a) pid) as [E|E].
  - exfalso. apply Hn. now left.
  - f_equal. apply IH. intros Hin. apply Hn. now right.
Qed.

Lemma remove_task_incl pid ts tk : In tk (remove_task pid ts) -> In tk ts.
Proof. unfold remove_task. intros H. now apply List.filter_In in H. Qed.

Lemma remove_task_NoDup pid ts :
  List.NoDup (List.map task_pid ts) -> List.NoDup (List.map task_pid (remove_task pid ts)).
Proof.
  induction ts as [|a ts IH]; intros Hnd; [constructor|].
  inversion Hnd as [|? ? Hna Hnd']; subst.
  rewrite remove_task_cons. destruct (Nat.eqb (task_pid a) pid); [now apply IH|].
  cbn. constructor; [|now apply IH].
  intros Hin. apply Hna. apply List.in_map_iff in Hin as (x & Hx & Hin).
  apply List.in_map_iff. exists x. split; [exact Hx|].
  now apply remove_task_incl in Hin.
Qed.

Lemma count_remove kind pid ts tk :
  List.NoDup (List.map task_pid ts) -> In tk ts -> task_pid tk = pid ->
  count kind (remove_task pid ts) + bool_to_nat (kind (task_call tk))
  = count kind ts.
Proof.
  induction ts as [|a ts IH]; intros Hnd Hin Hpid; [contradiction|].
  inversion Hnd as [|? ? Hna Hnd']; subst.
  rewrite remove_task_cons, count_cons.
  destruct Hin as [->|Hin].
  - rewrite Nat.eqb_refl, remove_task_fresh by exact Hna. lia.
  - destruct (Nat.eqb_spec (task_pid a) (task_pid tk)) as [E|E].
    + exfalso. apply Hna. rewrite E. now apply in_map.
    + rewrite count_cons. specialize (IH Hnd' Hin eq_refl). lia.
Qed.

Lemma store_eta (s : store) :
  mkStore (lockSelect s) (lockUpdate s) (lockDelete s) (loading s)
          (anchorEl s) (open s) (heap s) = s.
Proof. destruct s; reflexivity. Qed.

Lemma machine_eta (m : machine) :
  mkMachine (props m) (st m) (log m) (pending m) (next_pid m) (unhandled m) = m.
Proof. destruct m; reflexivity. Qed.

Lemma alter_alter_insert (f g : Profile.Option -> Profile.Option)
    (h : list Profile.Option) (l : nat) (o : Profile.Option) :
  h !! l = Some o -> alter f l (alter g l h) = <[l := f (g o)]> h.
Proof.
  revert l. induction h as [|x h IH]; intros [|l] H; try discriminate.
  - injection H as ->. reflexivity.
  - cbn. f_equal. now apply IH.
Qed.

Lemma alter_snoc (f : Profile.Option -> Profile.Option)
    (h : list Profile.Option) (x : Profile.Option) :
  alter f (length h) (h ++ [x]) = h ++ [f x].
Proof. induction h as [|y h IH]; cbn; [reflexivity | now f_equal]. Qed.

Lemma lookup_snoc (h : list Profile.Option) (x : Profile.Option) :
  (h ++ [x]) !! length h = Some x.
Proof. induction h as [|y h IH]; cbn; [reflexivity | exact IH]. Qed.

Lemma run_select_locked p m :
  lockSelect (st m) = true -> run (handleSelect p) m = m.
Proof. intros H. unfold handleSelect, useLockFn. cbn. now rewrite H. Qed.

Lemma run_select_selected p m :
  selected p = true -> run (handleSelect p) m = m.
Proof.
  intros H. unfold handleSelect, useLockFn. cbn.
  destruct (lockSelect (st m)) eqn:E; [reflexivity|]. rewrite H. cbn.
  rewrite <- E, store_eta. apply machine_eta.
Qed.

Lemma run_select_start p m :
  lockSelect (st m) = false -> selected p = false ->
  run (handleSelect p) m
  = mkMachine (props m)
      (mkStore true (lockUpdate (st m)) (lockDelete (st m))
               (mkLoading (update (loading (st m))) true)
               (anchorEl (st m)) (open (st m)) (heap (st m)))
      (log m ++ [Invoked (next_pid m) (setProfilesConfig (Profile.uid (item p)))])
      (pending m ++ [mkTask (next_pid m) (setProfilesConfig (Profile.uid (item p)))
                            (resume (setProfilesConfig (Profile.uid (item p))))])
      (S (next_pid m)) (unhandled m).
Proof.
  intros H1 H2. unfold handleSelect, useLockFn. cbn. rewrite H1, H2. reflexivity.
Qed.

Lemma run_delete_locked p m :
  lockDelete (st m) = true -> run (handleDelete p) m = m.
Proof. intros H. unfold handleDelete, useLockFn. cbn. now rewrite H. Qed.

Lemma run_delete_start p m :
  lockDelete (st m) = false ->
  run (handleDelete p) m
  = mkMachine (props m)
      (mkStore (lockSelect (st m)) (lockUpdate (st m)) true (loading (st m))
               (anchorEl (st m)) (open (st m)) (heap (st m)))
      (log m ++ [Invoked (next_pid m) (deleteProfile (Profile.uid (item p)))])
      (pending m ++ [mkTask (next_pid m) (deleteProfile (Profile.uid (item p)))
                            (resume (deleteProfile (Profile.uid (item p))))])
      (S (next_pid m)) (unhandled m).
Proof.
  intros H1. unfold handleDelete, useLockFn. cbn. rewrite H1. reflexivity.
Qed.

Lemma run_update_locked p proxy m :
  lockUpdate (st m) = true -> run (handleUpdate p proxy) m = m.
Proof. intros H. unfold handleUpdate, useLockFn. cbn. now rewrite H. Qed.

Lemma run_update_start proxy m :
  wf_heap m -> lockUpdate (st m) = false ->
  run (handleUpdate (props m) proxy) m
  = let c := updateProfile (Profile.uid (item (props m)))
                           (resolve_options (stored m) proxy) in
    mkMachine (props m)
      (mkStore (lockSelect (st m)) true (lockDelete (st m))
               (mkLoading true (card (loading (st m))))
               (anchorEl (st m)) (open (st m)) (heap_after_update m proxy))
      (log m ++ [Invoked (next_pid m) c])
      (pending m ++ [mkTask (next_pid m) c (resume c)])
      (S (next_pid m)) (unhandled m).
Proof.
  intros Hwf H1. unfold handleUpdate, useLockFn, heap_after_update, stored.
  cbn. rewrite H1. cbn. unfold item_self_proxy.
  destruct (Profile.option (item (props m))) as [l|] eqn:E.
  - destruct (lookup_lt_is_Some_2 (heap (st m)) l (Hwf l E)) as [o Ho].
    destruct proxy; cbn.
    + rewrite Ho. cbn. destruct o as [wp [|]]; cbn.
      * rewrite (alter_alter_insert _ _ _ _ _ Ho). cbn.
        rewrite list_lookup_insert_eq by (apply lookup_lt_is_Some; eauto).
        reflexivity.
      * rewrite (alter_alter_insert _ _ _ _ _ Ho). cbn.
        rewrite list_lookup_insert_eq by (apply lookup_lt_is_Some; eauto).
        reflexivity.
    + rewrite Ho. cbn. reflexivity.
  - destruct proxy; cbn.
    + rewrite !alter_snoc. cbn. rewrite lookup_snoc. reflexivity.
    + rewrite lookup_snoc. reflexivity.
Qed.

Lemma run_resume_set_resolved u m :
  run (resume (setProfilesConfig u) Resolved) m
  = mkMachine (props m) (st m)
      (log m ++ [Invoked (next_pid m) deleteConnections])
      (pending m ++ [mkTask (next_pid m) deleteConnections (resume deleteConnections)])
      (S (next_pid m)) (unhandled m).
Proof. reflexivity. Qed.

Lemma run_resume_set_rejected u e m :
  run (resume (setProfilesConfig u) (Rejected e)) m
  = mkMachine (props m)
      (mkStore false (lockUpdate (st m)) (lockDelete (st m))
               (mkLoading (update (loading (st m))) false)
               (anchorEl (st m)) (open (st m)) (heap (st m)))
      (log m ++ [Called (message (select_error_text e) (t "Error" []) "error")])
      (pending m) (next_pid m) (unhandled m).
Proof. reflexivity. Qed.

Lemma run_resume_del_resolved m :
  run (resume deleteConnections Resolved) m
  = mkMachine (props m)
      (mkStore false (lockUpdate (st m)) (lockDelete (st m))
               (mkLoading (update (loading (st m))) false)
               (anchorEl (st m)) (open (st m)) (heap (st m)))
      (log m) (pending m) (next_pid m) (unhandled m).
Proof. reflexivity. Qed.

Lemma run_resume_del_rejected e m :
  run (resume deleteConnections (Rejected e)) m
  = mkMachine (props m)
      (mkStore false (lockUpdate (st m)) (lockDelete (st m))
               (mkLoading (update (loading (st m))) false)
               (anchorEl (st m)) (open (st m)) (heap (st m)))
      (log m ++ [Called (message (select_error_text e) (t "Error" []) "error")])
      (pending m) (next_pid m) (unhandled m).
Proof. reflexivity. Qed.

Lemma run_resume_update_resolved u o m :
  run (resume (updateProfile u o) Resolved) m
  = mkMachine (props m)
      (mkStore (lockSelect (st m)) false (lockDelete (st m))
               (mkLoading false (card (loading (st m))))
               (anchorEl (st m)) (open (st m)) (heap (st m)))
      (log m) (pending m) (next_pid m) (unhandled m).
Proof. reflexivity. Qed.

Lemma run_resume_update_rejected u o e m :
  run (resume (updateProfile u o) (Rejected e)) m
  = mkMachine (props m)
      (mkStore (lockSelect (st m)) false (lockDelete (st m))
               (mkLoading false (card (loading (st m))))
               (anchorEl (st m)) (open (st m)) (heap (st m)))
      (log m) (pending m) (next_pid m) (unhandled m ++ [e]).
Proof. reflexivity. Qed.

Lemma run_resume_delete_resolved u m :
  run (resume (deleteProfile u) Resolved) m
  = mkMachine (props m)
      (mkStore (lockSelect (st m)) (lockUpdate (st m)) false (loading (st m))
               (anchorEl (st m)) (open (st m)) (heap (st m)))
      (log m) (pending m) (next_pid m) (unhandled m).
Proof. reflexivity. Qed.

Lemma run_resume_delete_rejected u e m :
  run (resume (deleteProfile u) (Rejected e)) m
  = mkMachine (props m)
      (mkStore (lockSelect (st m)) (lockUpdate (st m)) false (loading (st m))
               (anchorEl (st m)) (open (st m)) (heap (st m)))
      (log m ++ [Called (message ("Delete failed: " ++ nl ++ " " ++ JSON_stringify e)%string
                                 (t "Error" []) "error")])
      (pending m) (next_pid m) (unhandled m).
Proof. reflexivity. Qed.

Lemma step_Settle_found m pid o tk :
  find_task pid (pending m) = Some tk ->
  (forall o, task_k tk o = resume (task_call tk) o) ->
  step m (Settle pid o)
  = run (resume (task_call tk) o)
        (mkMachine (props m) (st m) (log m ++ [Settled pid o])
                   (remove_task pid (pending m)) (next_pid m) (unhandled m)).
Proof. intros Hf Hk. cbn [step]. rewrite Hf, Hk. reflexivity. Qed.

Lemma run_handleClick f m :
  run (handleClick f) m = run f (run (setAnchorEl None) m).
Proof. reflexivity. Qed.

(** *** Preservation of the invariant *)

Lemma sequential_snoc l e :
  sequential l -> (forall q, e <> Invoked q deleteConnections) ->
  sequential (l ++ [e]).
Proof.
  intros Hl He j q Hj. apply lookup_app_Some in Hj as [Hj | [Hlen Hj]].
  - destruct (Hl j q Hj) as (j' & p & u & i & -> & H1 & Hlt & H2).
    exists j', p, u, i. repeat split; auto using lookup_app_l_Some.
  - destruct (j - length l) as [|k]; [|destruct k; discriminate].
    injection Hj as ->. now destruct (He q).
Qed.

Lemma sequential_del l p u q i :
  sequential l -> l !! i = Some (Invoked p (setProfilesConfig u)) ->
  sequential ((l ++ [Settled p Resolved]) ++ [Invoked q deleteConnections]).
Proof.
  intros Hl Hi j q' Hj. apply lookup_app_Some in Hj as [Hj | [Hlen Hj]].
  - assert (Hs : sequential (l ++ [Settled p Resolved]))
      by (apply sequential_snoc; [exact Hl | discriminate]).
    destruct (Hs j q' Hj) as (j' & p' & u' & i' & -> & H1 & Hlt & H2).
    exists j', p', u', i'. repeat split; auto using lookup_app_l_Some.
  - rewrite length_app in Hlen. cbn in Hlen.
    destruct (j - length (l ++ [Settled p Resolved])) as [|k] eqn:Ek;
      [|destruct k; discriminate].
    rewrite length_app in Ek. cbn in Ek.
    exists (length l), p, u, i. repeat split.
    + lia.
    + apply lookup_app_l_Some. apply list_lookup_middle. reflexivity.
    + now apply lookup_lt_Some in Hi.
    + now do 2 apply lookup_app_l_Some.
Qed.

Lemma task_ok_mono n n' l l' tk :
  n <= n' -> task_ok n l tk -> task_ok n' (l ++ l') tk.
Proof.
  intros Hn (Ha & Hk & Hlt & i & Hi). repeat split; auto; [lia|].
  exists i. now apply lookup_app_l_Some.
Qed.

Lemma tasks_mono n n' l l' ts :
  n <= n' -> Forall (task_ok n l) ts -> Forall (task_ok n' (l ++ l')) ts.
Proof. intros Hn. apply List.Forall_impl. intros tk. now apply task_ok_mono. Qed.

Lemma tasks_push n l ts c k :
  Forall (task_ok n l) ts -> awaited c = true ->
  (forall o, k o = resume c o) ->
  Forall (task_ok (S n) (l ++ [Invoked n c])) (ts ++ [mkTask n c k]).
Proof.
  intros Hts Ha Hk. apply Forall_app. split.
  - eapply tasks_mono; [|exact Hts]. lia.
  - constructor; [|constructor]. repeat split; cbn; auto.
    exists (length l). apply list_lookup_middle. reflexivity.
Qed.

Lemma tasks_remove n l pid ts :
  Forall (task_ok n l) ts -> Forall (task_ok n l) (remove_task pid ts).
Proof.
  intros H. apply List.Forall_forall. intros tk Hin.
  apply remove_task_incl in Hin. revert tk Hin. now apply List.Forall_forall.
Qed.

Lemma nodup_push n l ts c k :
  Forall (task_ok n l) ts -> List.NoDup (List.map task_pid ts) ->
  List.NoDup (List.map task_pid (ts ++ [mkTask n c k])).
Proof.
  induction ts as [|a ts IH]; cbn; intros Hts Hnd.
  - constructor; [intros []|constructor].
  - inversion Hts as [|? ? Ha Hts']; subst.
    inversion Hnd as [|? ? Hna Hnd']; subst.
    constructor; [|now apply IH].
    rewrite List.map_app. intros Hin. apply List.in_app_or in Hin as [Hin|Hin].
    + now apply Hna.
    + cbn in Hin. destruct Hin as [Hin|[]].
      destruct Ha as (_ & _ & Hlt & _). lia.
Qed.

Lemma count_push kind ts n c k :
  count kind (ts ++ [mkTask n c k]) = count kind ts + bool_to_nat (kind c).
Proof. rewrite count_app. unfold count at 2. cbn. now destruct (kind c). Qed.

Lemma count_In kind ts tk :
  In tk ts -> kind (task_call tk) = true -> 0 < count kind ts.
Proof.
  induction ts as [|a ts IH]; intros Hin Hk; [contradiction|].
  rewrite count_cons. destruct Hin as [->|Hin].
  - rewrite Hk. cbn. lia.
  - specialize (IH Hin Hk). lia.
Qed.

Local Arguments count : simpl never.
Local Arguments bool_to_nat : simpl nomatch.

Lemma Inv_mount it o sel : Inv (mount it o sel).
Proof.
  constructor; cbn; try reflexivity; try constructor.
  - intros l. destruct o; cbn; [|discriminate].
    intros [= <-]. cbn. lia.
  - intros j q H. destruct j; discriminate.
Qed.

Lemma Inv_setAnchorEl a m : Inv m -> Inv (run (setAnchorEl a) m).
Proof. intros []. constructor; assumption. Qed.

Lemma Inv_setOpen b m : Inv m -> Inv (run (setOpen b) m).
Proof. intros []. constructor; assumption. Qed.

Lemma Inv_fire c m : Inv m -> Inv (run (fire c) m).
Proof.
  intros []. constructor; cbn; try assumption.
  - eapply tasks_mono; [|eassumption]. lia.
  - apply sequential_snoc; [assumption | discriminate].
Qed.

Lemma Inv_run_select p m : Inv m -> Inv (run (handleSelect p) m).
Proof.
  intros HI. destruct (lockSelect (st m)) eqn:El.
  { now rewrite run_select_locked. }
  destruct (selected p) eqn:Es.
  { now rewrite run_select_selected. }
  rewrite run_select_start by assumption. destruct HI.
  constructor; cbn; try assumption; try reflexivity.
  - now apply tasks_push.
  - eapply nodup_push; eassumption.
  - rewrite count_push, inv_select0, El. reflexivity.
  - rewrite count_push, inv_update0. cbn. lia.
  - rewrite count_push, inv_delete0. cbn. lia.
  - apply sequential_snoc; [assumption | discriminate].
Qed.

Lemma Inv_run_delete p m : Inv m -> Inv (run (handleDelete p) m).
Proof.
  intros HI. destruct (lockDelete (st m)) eqn:El.
  { now rewrite run_delete_locked. }
  rewrite run_delete_start by assumption. destruct HI.
  constructor; cbn; try assumption; try reflexivity.
  - now apply tasks_push.
  - eapply nodup_push; eassumption.
  - rewrite count_push, inv_select0. cbn. lia.
  - rewrite count_push, inv_update0. cbn. lia.
  - rewrite count_push, inv_delete0, El. reflexivity.
  - apply sequential_snoc; [assumption | discriminate].
Qed.

Lemma heap_after_update_length m proxy :
  length (heap (st m)) <= length (heap_after_update m proxy).
Proof.
  unfold heap_after_update.
  destruct (Profile.option (item (props m))); [destruct proxy|].
  - now rewrite length_insert.
  - reflexivity.
  - rewrite length_app. lia.
Qed.

Lemma Inv_run_update proxy m :
  Inv m -> Inv (run (handleUpdate (props m) proxy) m).
Proof.
  intros HI. destruct (lockUpdate (st m)) eqn:El.
  { now rewrite run_update_locked. }
  rewrite run_update_start by (assumption || apply HI). destruct HI.
  constructor; cbn; try assumption; try reflexivity.
  - now apply tasks_push.
  - eapply nodup_push; eassumption.
  - rewrite count_push, inv_select0. cbn. lia.
  - rewrite count_push, inv_update0, El. reflexivity.
  - rewrite count_push, inv_delete0. cbn. lia.
  - intros l Hl. cbn. specialize (inv_heap0 l Hl).
    pose proof (heap_after_update_length m proxy). lia.
  - apply sequential_snoc; [assumption | discriminate].
Qed.

Lemma Inv_load_item it o m : Inv m -> Inv (load_item it o m).
Proof.
  intros []. constructor; cbn; try assumption.
  intros l. cbn. destruct o; [|discriminate].
  intros [= <-]. rewrite length_app. cbn. lia.
Qed.

Lemma Inv_settle pid o m : Inv m -> Inv (step m (Settle pid o)).
Proof.
  intros HI. destruct (find_task pid (pending m)) as [tk|] eqn:Ef.
  2:{ cbn. now rewrite Ef. }
  pose proof (find_task_Some _ _ _ Ef) as [Hin Hpid].
  destruct HI.
  pose proof (proj1 (List.Forall_forall _ _) inv_tasks0 tk Hin)
    as (Haw & Hk & Hlt & i & Hi).
  rewrite (step_Settle_found _ _ _ _ Ef Hk).
  pose proof (count_remove is_select_call _ _ _ inv_nodup0 Hin Hpid) as Cs.
  pose proof (count_remove is_update_call _ _ _ inv_nodup0 Hin Hpid) as Cu.
  pose proof (count_remove is_delete_call _ _ _ inv_nodup0 Hin Hpid) as Cd.
  assert (Ht : Forall (task_ok (next_pid m) (log m ++ [Settled pid o]))
                      (remove_task pid (pending m))).
  { apply tasks_remove. eapply tasks_mono; [|eassumption]. lia. }
  pose proof (remove_task_NoDup pid _ inv_nodup0) as Hnd.
  assert (Hs : sequential (log m ++ [Settled pid o]))
    by (apply sequential_snoc; [assumption | discriminate]).
  destruct (task_call tk) eqn:Ec; try discriminate; destruct o as [|e];
    constructor; cbn in *; try assumption; try reflexivity;
    try (now apply tasks_push);
    try (eapply nodup_push; eassumption);
    try (eapply tasks_mono; [|eassumption]; lia);
    try (apply sequential_snoc; [assumption | discriminate]);
    try (rewrite ?count_push; cbn;
         destruct (lockSelect (st m)), (lockUpdate (st m)), (lockDelete (st m));
         cbn in *; lia).
  rewrite <- Hpid. eapply sequential_del; eassumption.
Qed.

Lemma Inv_step m ev : Inv m -> Inv (step m ev).
Proof.
  intros HI. destruct ev.
  - now apply Inv_run_select.
  - now apply Inv_fire.
  - now apply (Inv_run_update false).
  - now apply Inv_setAnchorEl.
  - now apply Inv_setAnchorEl.
  - cbn [step]. rewrite run_handleClick.
    pose proof (Inv_setAnchorEl None m HI) as HI'.
    destruct key; cbn [menuMapping].
    + now apply Inv_run_select.
    + now apply Inv_setOpen.
    + now apply Inv_fire.
    + now apply Inv_fire.
    + now apply (Inv_run_update false (run (setAnchorEl None) m)).
    + now apply (Inv_run_update true (run (setAnchorEl None) m)).
    + now apply Inv_run_delete.
  - now apply Inv_setOpen.
  - destruct HI. constructor; assumption.
  - now apply Inv_load_item.
  - now apply Inv_settle.
Qed.

Lemma Inv_exec m evs : Inv m -> Inv (exec m evs).
Proof.
  revert m. induction evs as [|ev evs IH]; intros m HI; [exact HI|].
  cbn. apply IH. now apply Inv_step.
Qed.

Lemma Inv_reachable m : reachable m -> Inv m.
Proof.
  intros (it & o & sel & evs & ->). apply Inv_exec, Inv_mount.
Qed.

(** *** Consequences of the invariant *)

Lemma lock_of_in_flight m a :
  Inv m ->
  in_flight (calls_of a) m
  = bool_to_nat (match a with
                 | Selecting => lockSelect (st m)
                 | Updating => lockUpdate (st m)
                 | Deleting => lockDelete (st m)
                 end).
Proof. intros []. destruct a; assumption. Qed.

Lemma invocations_snoc l pid c :
  invocations (l ++ [Invoked pid c]) = invocations l ++ [c].
Proof. unfold invocations. now rewrite omap_app. Qed.

Lemma messages_snoc_invoked l pid c :
  messages (l ++ [Invoked pid c]) = messages l.
Proof. unfold messages. rewrite omap_app. cbn. apply app_nil_r. Qed.

Lemma messages_snoc_settled l pid o :
  messages (l ++ [Settled pid o]) = messages l.
Proof. unfold messages. rewrite omap_app. cbn. apply app_nil_r. Qed.

Lemma messages_snoc_message l a b c :
  messages (l ++ [Called (message a b c)]) = messages l ++ [message a b c].
Proof. unfold messages. now rewrite omap_app. Qed.

(** A trigger of a guarded action whose lock is held only closes the
    menu, when it came from the menu. *)
Lemma step_trigger_locked m ev a :
  Inv m -> trigger_of ev = Some a -> 0 < in_flight (calls_of a) m ->
  step m ev = dismiss ev m.
Proof.
  intros HI Ht Hf. rewrite (lock_of_in_flight m a HI) in Hf.
  destruct ev as [| | | | |key| | | |]; try discriminate;
    [| |destruct key; try discriminate];
    injection Ht as <-; cbn [step dismiss menuMapping];
    rewrite ?run_handleClick;
    (apply run_select_locked || apply run_update_locked || apply run_delete_locked);
    cbn; destruct (lockSelect (st m)), (lockUpdate (st m)), (lockDelete (st m));
    cbn in Hf; (reflexivity || lia).
Qed.

(** A trigger of a guarded action whose lock is free invokes one
    collaborator call of that action. *)
Lemma step_trigger_free m ev a :
  Inv m -> trigger_of ev = Some a -> in_flight (calls_of a) m = 0 ->
  (a = Selecting -> selected (props m) = false) ->
  exists c, calls_of a c = true /\
    log (step m ev) = log m ++ [Invoked (next_pid m) c] /\
    in_flight (calls_of a) (step m ev) = 1.
Proof.
  intros HI Ht Hf Hs. rewrite (lock_of_in_flight m a HI) in Hf.
  pose proof (Inv_step m ev HI) as HI'.
  rewrite (lock_of_in_flight _ a HI').
  destruct ev as [| | | | |key| | | |]; try discriminate;
    [| |destruct key; try discriminate];
    injection Ht as <-; cbn [step menuMapping];
    rewrite ?run_handleClick.
  - rewrite run_select_start;
      [|now destruct (lockSelect (st m))|now apply Hs].
    eexists. split; [|split; reflexivity]. reflexivity.
  - rewrite run_update_start;
      [|apply HI|now destruct (lockUpdate (st m))].
    eexists. split; [|split; reflexivity]. reflexivity.
  - rewrite run_select_start;
      [|cbn; now destruct (lockSelect (st m))|now apply Hs].
    eexists. split; [|split; reflexivity]. reflexivity.
  - change (handleUpdate (props m))
      with (handleUpdate (props (run (setAnchorEl None) m))).
    rewrite (run_update_start false (run (setAnchorEl None) m));
      [|apply HI|cbn; now destruct (lockUpdate (st m))].
    eexists. split; [|split; reflexivity]. reflexivity.
  - change (handleUpdate (props m))
      with (handleUpdate (props (run (setAnchorEl None) m))).
    rewrite (run_update_start true (run (setAnchorEl None) m));
      [|apply HI|cbn; now destruct (lockUpdate (st m))].
    eexists. split; [|split; reflexivity]. reflexivity.
  - rewrite run_delete_start;
      [|cbn; now destruct (lockDelete (st m))].
    eexists. split; [|split; reflexivity]. reflexivity.
Qed.

Lemma log_dismiss ev m : log (dismiss ev m) = log m.
Proof. now destruct ev. Qed.

Lemma pending_dismiss ev m : pending (dismiss ev m) = pending m.
Proof. now destruct ev. Qed.

(** C9: a trigger of Select on the card that is already selected makes
    no backend call and leaves the whole state of the card as it was:
    the click on the card changes nothing at all, and the menu entry
    does what closing the menu does. *)
Theorem select_on_selected_is_noop (m : machine) :
  selected (props m) = true ->
  step m ClickCard = m /\
  step m (ClickMenuItem Select) = step m CloseMenu.
Proof.
  intros Hs. split.
  - now apply run_select_selected.
  - cbn [step menuMapping]. rewrite run_handleClick.
    now apply run_select_selected.
Qed.

(** C2: while a call of a guarded action (select, update, delete) is in
    flight, a new trigger of that action is dropped: it makes no call and
    leaves nothing behind, so the state is the one before (with the menu
    closed, for a menu entry). From rest, two triggers in a row make
    exactly one collaborator call. *)
Theorem guard_drops_reentrant_trigger (m : machine) (a : guarded)
    (ev ev' : event) :
  reachable m -> trigger_of ev = Some a -> trigger_of ev' = Some a ->
  (0 < in_flight (calls_of a) m -> step m ev = dismiss ev m) /\
  (in_flight (calls_of a) m = 0 ->
   (a = Selecting -> selected (props m) = false) ->
   exists c, calls_of a c = true /\
     invocations (log (exec m [ev; ev'])) = invocations (log m) ++ [c] /\
     in_flight (calls_of a) (exec m [ev; ev']) = 1).
Proof.
  intros Hr Ht Ht'. apply Inv_reachable in Hr. split.
  - now apply step_trigger_locked.
  - intros Hf Hs.
    destruct (step_trigger_free m ev a Hr Ht Hf Hs) as (c & Hc & Hl & Hn).
    exists c. split; [exact Hc|]. cbn [exec fold_left].
    rewrite (step_trigger_locked (step m ev) ev' a);
      [|now apply Inv_step|exact Ht'|lia].
    unfold in_flight. rewrite log_dismiss, pending_dismiss, Hl.
    split; [apply invocations_snoc | exact Hn].
Qed.

(** Settling the promise of a suspended handler resumes it as the source
    says. *)
Lemma step_Settle_pending m tk o :
  Inv m -> In tk (pending m) ->
  step m (Settle (task_pid tk) o)
  = run (resume (task_call tk) o)
        (mkMachine (props m) (st m) (log m ++ [Settled (task_pid tk) o])
                   (remove_task (task_pid tk) (pending m)) (next_pid m)
                   (unhandled m)).
Proof.
  intros HI Hin. apply step_Settle_found.
  - apply find_task_In; [apply HI | exact Hin | reflexivity].
  - pose proof (inv_tasks m HI) as Ht.
    apply (proj1 (List.Forall_forall _ _) Ht tk Hin).
Qed.

(** C10: the entries Update and Update(Proxy) of the menu, and the update
    button, go through one lock and one loading flag: at most one
    [updateProfile] is in flight at any time, the flag [loading.update]
    is set exactly then, and each of the three triggers is dropped
    then. *)
Theorem update_variants_share_guard (m : machine) :
  reachable m ->
  in_flight is_update_call m <= 1 /\
  (update (loading (st m)) = true <-> in_flight is_update_call m = 1) /\
  (lockUpdate (st m) = true <-> in_flight is_update_call m = 1) /\
  (in_flight is_update_call m = 1 ->
   forall ev, In ev [ClickUpdate; ClickMenuItem Update; ClickMenuItem Update_Proxy] ->
     step m ev = dismiss ev m).
Proof.
  intros Hr. apply Inv_reachable in Hr.
  pose proof (inv_update m Hr) as Hu.
  pose proof (inv_loading_update m Hr) as Hl.
  unfold in_flight. rewrite Hu, Hl.
  destruct (lockUpdate (st m)); cbn; repeat split; try lia; try discriminate;
    try reflexivity.
  intros _ ev Hev. apply (step_trigger_locked m ev Updating Hr).
  - cbn in Hev. destruct Hev as [<-|[<-|[<-|[]]]]; reflexivity.
  - unfold in_flight. cbn [calls_of]. rewrite Hu. cbn.
    destruct (lockUpdate (st m)); cbn; lia.
Qed.

(** C5: the loading flag of a guarded action ([loading.card] for select,
    [loading.update] for update) is true exactly while a call of that
    action is in flight. The trigger that starts the action sets it,
    together with the call; it stays set when [setProfilesConfig] resolves
    and [deleteConnections] is awaited; and the settlement that ends the
    handler resets it, whether the call resolved or rejected. *)
Theorem loading_flag_reset_on_completion (m : machine) :
  reachable m ->
  (card (loading (st m)) = true <-> 0 < in_flight is_select_call m) /\
  (update (loading (st m)) = true <-> 0 < in_flight is_update_call m) /\
  (forall ev, trigger_of ev = Some Selecting ->
     in_flight is_select_call m = 0 -> selected (props m) = false ->
     card (loading (st (step m ev))) = true /\
     in_flight is_select_call (step m ev) = 1) /\
  (forall ev, trigger_of ev = Some Updating ->
     in_flight is_update_call m = 0 ->
     update (loading (st (step m ev))) = true /\
     in_flight is_update_call (step m ev) = 1) /\
  (forall tk u, In tk (pending m) -> task_call tk = setProfilesConfig u ->
     card (loading (st (step m (Settle (task_pid tk) Resolved)))) = true /\
     in_flight is_select_call (step m (Settle (task_pid tk) Resolved)) = 1) /\
  (forall tk o, In tk (pending m) -> finishes (task_call tk) o = true ->
     let m' := step m (Settle (task_pid tk) o) in
     (is_select_call (task_call tk) = true ->
        card (loading (st m')) = false /\ in_flight is_select_call m' = 0) /\
     (is_update_call (task_call tk) = true ->
        update (loading (st m')) = false /\ in_flight is_update_call m' = 0)).
Proof.
  intros Hr. apply Inv_reachable in Hr.
  split; [|split; [|split; [|split; [|split]]]].
  - unfold in_flight. rewrite (inv_select m Hr), (inv_card m Hr).
    destruct (lockSelect (st m)); cbn; split; (lia || discriminate || reflexivity).
  - unfold in_flight. rewrite (inv_update m Hr), (inv_loading_update m Hr).
    destruct (lockUpdate (st m)); cbn; split; (lia || discriminate || reflexivity).
  - intros ev Ht Hz Hs.
    destruct (step_trigger_free m ev Selecting Hr Ht Hz (fun _ => Hs))
      as (c & _ & _ & Hn).
    split; [|exact Hn].
    pose proof (Inv_step m ev Hr) as HI'.
    unfold in_flight in Hn. cbn [calls_of] in Hn.
    rewrite (inv_select _ HI') in Hn. rewrite (inv_card _ HI').
    now destruct (lockSelect (st (step m ev))).
  - intros ev Ht Hz.
    destruct (step_trigger_free m ev Updating Hr Ht Hz) as (c & _ & _ & Hn);
      [discriminate|].
    split; [|exact Hn].
    pose proof (Inv_step m ev Hr) as HI'.
    unfold in_flight in Hn. cbn [calls_of] in Hn.
    rewrite (inv_update _ HI') in Hn. rewrite (inv_loading_update _ HI').
    now destruct (lockUpdate (st (step m ev))).
  - intros tk u Hin Hc.
    pose proof (Inv_step m (Settle (task_pid tk) Resolved) Hr) as HI'.
    assert (Hl : lockSelect (st (step m (Settle (task_pid tk) Resolved))) = true).
    { rewrite (step_Settle_pending m tk _ Hr Hin), Hc.
      rewrite run_resume_set_resolved. cbn [st].
      assert (Hpos : 0 < count is_select_call (pending m)).
      { apply (count_In is_select_call (pending m) tk Hin). now rewrite Hc. }
      rewrite (inv_select m Hr) in Hpos.
      destruct (lockSelect (st m)); [reflexivity | cbn in Hpos; lia]. }
    unfold in_flight. rewrite (inv_select _ HI'), (inv_card _ HI'), Hl.
    split; reflexivity.
  - intros tk o Hin Hfin m'.
    pose proof (Inv_step m (Settle (task_pid tk) o) Hr) as HI'. fold m' in HI'.
    unfold in_flight.
    rewrite (inv_select m' HI'), (inv_update m' HI').
    rewrite <- (inv_card m' HI'), <- (inv_loading_update m' HI').
    subst m'. rewrite (step_Settle_pending m tk o Hr Hin).
    destruct (task_call tk); destruct o; try discriminate;
      split; intros Hk; try discriminate; split; reflexivity.
Qed.

(** C3: the two backend calls of Select are sequential. A trigger on a
    card that is not selected invokes [setProfilesConfig] and nothing
    else; [deleteConnections] is invoked when, and in the same turn as,
    that promise resolves; when it rejects, the error is notified,
    [deleteConnections] is not invoked and the action is over. In the
    log of any run, each [deleteConnections] comes right after the
    successful settlement of an earlier [setProfilesConfig]. *)
Theorem select_calls_are_sequential (m : machine) :
  reachable m ->
  sequential (log m) /\
  (in_flight is_select_call m = 0 -> selected (props m) = false ->
     log (step m ClickCard)
     = log m ++ [Invoked (next_pid m)
                         (setProfilesConfig (Profile.uid (item (props m))))]) /\
  (forall tk u, In tk (pending m) -> task_call tk = setProfilesConfig u ->
     log (step m (Settle (task_pid tk) Resolved))
     = log m ++ [Settled (task_pid tk) Resolved;
                 Invoked (next_pid m) deleteConnections] /\
     forall e,
       log (step m (Settle (task_pid tk) (Rejected e)))
       = log m ++ [Settled (task_pid tk) (Rejected e);
                   Called (message (select_error_text e) (t "Error" []) "error")] /\
       in_flight is_select_call (step m (Settle (task_pid tk) (Rejected e))) = 0).
Proof.
  intros Hr. apply Inv_reachable in Hr. split; [apply Hr|split].
  - intros Hf Hs. unfold in_flight in Hf. rewrite (inv_select m Hr) in Hf.
    cbn [step]. rewrite run_select_start; [reflexivity| |exact Hs].
    now destruct (lockSelect (st m)).
  - intros tk u Hin Hc. split; [|intros e; split].
    + rewrite (step_Settle_pending m tk _ Hr Hin), Hc.
      cbn. now rewrite <- app_assoc.
    + rewrite (step_Settle_pending m tk _ Hr Hin), Hc.
      cbn. now rewrite <- app_assoc.
    + pose proof (Inv_step m (Settle (task_pid tk) (Rejected e)) Hr) as HI'.
      unfold in_flight. rewrite (inv_select _ HI').
      rewrite (step_Settle_pending m tk _ Hr Hin), Hc. reflexivity.
Qed.

(** C8: when [updateProfile] rejects, the update handler notifies
    nobody: the log gains the settlement only, and the error leaves the
    handler as a rejection that nothing handles. No trigger of update
    calls [message] either. A rejection in select or in delete is
    notified. *)
Theorem update_failure_is_not_notified (m : machine) (tk : task) (e : jsval) :
  reachable m -> In tk (pending m) ->
  let m' := step m (Settle (task_pid tk) (Rejected e)) in
  (is_update_call (task_call tk) = true ->
     log m' = log m ++ [Settled (task_pid tk) (Rejected e)] /\
     messages (log m') = messages (log m) /\
     unhandled m' = unhandled m ++ [e]) /\
  (is_select_call (task_call tk) = true ->
     messages (log m')
     = messages (log m)
       ++ [message (select_error_text e) (t "Error" []) "error"]) /\
  (is_delete_call (task_call tk) = true ->
     messages (log m')
     = messages (log m)
       ++ [message ("Delete failed: " ++ nl ++ " " ++ JSON_stringify e)%string
                   (t "Error" []) "error"]) /\
  (forall ev, trigger_of ev = Some Updating ->
     messages (log (step m ev)) = messages (log m)).
Proof.
  intros Hr Hin m'. apply Inv_reachable in Hr. subst m'.
  rewrite (step_Settle_pending m tk _ Hr Hin).
  repeat split; try (destruct (task_call tk); try discriminate; cbn;
    rewrite ?messages_snoc_message, ?messages_snoc_settled; reflexivity).
  intros ev Ht.
  destruct (Nat.eq_dec (in_flight (calls_of Updating) m) 0) as [Hz|Hnz].
  - destruct (step_trigger_free m ev Updating Hr Ht Hz) as (c & _ & Hl & _);
      [discriminate|].
    rewrite Hl. apply messages_snoc_invoked.
  - rewrite (step_trigger_locked m ev Updating Hr Ht) by lia.
    now rewrite log_dismiss.
Qed.

(** C4: an update sends to [updateProfile] the options resolved from the
    stored ones (or from the default, both false): unchanged from the
    button and from the entry Update; from the entry Update(Proxy),
    self-proxy alone when self-proxy was stored, and with-proxy alone
    otherwise. *)
Theorem update_options_resolution (m : machine) :
  reachable m -> in_flight is_update_call m = 0 ->
  let sent proxy :=
    log m ++ [Invoked (next_pid m)
                (updateProfile (Profile.uid (item (props m)))
                               (resolve_options (stored m) proxy))] in
  log (step m ClickUpdate) = sent false /\
  log (step m (ClickMenuItem Update)) = sent false /\
  log (step m (ClickMenuItem Update_Proxy)) = sent true /\
  resolve_options (stored m) false
  = default (Profile.mkOption false false) (stored m) /\
  resolve_options (stored m) true
  = if Profile.self_proxy (default (Profile.mkOption false false) (stored m))
    then Profile.mkOption false true else Profile.mkOption true false.
Proof.
  intros Hr Hf sent. apply Inv_reachable in Hr.
  unfold in_flight in Hf. rewrite (inv_update m Hr) in Hf.
  assert (Hl : lockUpdate (st m) = false) by now destruct (lockUpdate (st m)).
  subst sent. cbn [step menuMapping]. rewrite !run_handleClick.
  change (handleUpdate (props m))
    with (handleUpdate (props (run (setAnchorEl None) m))) at 2 3.
  rewrite (run_update_start false m), 
          (run_update_start false (run (setAnchorEl None) m)),
          (run_update_start true (run (setAnchorEl None) m));
    try (apply Hr); try exact Hl.
  repeat split.
Qed.

(** When the item has an option object, an update via proxy leaves the
    resolved options in that very object. *)
Lemma stored_after_update_via_proxy (m : machine) (l : nat) :
  reachable m -> in_flight is_update_call m = 0 ->
  Profile.option (item (props m)) = Some l ->
  stored (step m (ClickMenuItem Update_Proxy))
  = Some (resolve_options (stored m) true).
Proof.
  intros Hr Hf Hl. apply Inv_reachable in Hr.
  unfold in_flight in Hf. rewrite (inv_update m Hr) in Hf.
  assert (Hk : lockUpdate (st m) = false) by now destruct (lockUpdate (st m)).
  cbn [step menuMapping]. rewrite run_handleClick.
  change (handleUpdate (props m))
    with (handleUpdate (props (run (setAnchorEl None) m))).
  rewrite (run_update_start true (run (setAnchorEl None) m));
    [|apply Hr|exact Hk].
  unfold stored, heap_after_update. cbn. rewrite !Hl.
  rewrite list_lookup_insert_eq by (now apply (inv_heap m Hr)).
  unfold stored. cbn. now rewrite Hl.
Qed.

(** C7: a card whose item stores the options [{false, false}]. The entry
    Update(Proxy) writes [with_proxy = true] into the option object of
    the item, which the props still hold; the plain update that follows
    sends the changed options. *)
Theorem update_via_proxy_mutates_item :
  let m := mount (item_with None) (Some (Profile.mkOption false false)) false in
  let m' := step m (ClickMenuItem Update_Proxy) in
  stored m = Some (Profile.mkOption false false) /\
  props m' = props m /\
  stored m' = Some (Profile.mkOption true false) /\
  invocations (log (exec m' [Settle 0 Resolved; ClickUpdate]))
  = [updateProfile "p1" (Profile.mkOption true false);
     updateProfile "p1" (Profile.mkOption true false)].
Proof. repeat split. Qed.

(** *** Further properties of the card *)

(** A handler reads the props when it is triggered, never when it runs:
    [run] carries them along untouched. *)
Lemma run_props (p : prog unit) (m : machine) (P : Props) :
  run p (mkMachine P (st m) (log m) (pending m) (next_pid m) (unhandled m))
  = mkMachine P (st (run p m)) (log (run p m)) (pending (run p m))
              (next_pid (run p m)) (unhandled (run p m)).
Proof.
  revert m. induction p as [a|e|k IH|f k IH|c k IH|c k IH]; intros m; cbn.
  - reflexivity.
  - reflexivity.
  - apply (IH (st m) m).
  - apply (IH (mkMachine (props m) (f (st m)) (log m) (pending m)
                         (next_pid m) (unhandled m))).
  - apply (IH (mkMachine (props m) (st m) (log m ++ [Called c]) (pending m)
                         (next_pid m) (unhandled m))).
  - reflexivity.
Qed.

Lemma run_keeps_props (p : prog unit) (m : machine) :
  props (run p m) = props m.
Proof.
  revert m. induction p as [a|e|k IH|f k IH|c k IH|c k IH]; intros m; cbn;
    try reflexivity.
  - apply (IH (st m) m).
  - now rewrite IH.
  - now rewrite IH.
Qed.

(** What settling a promise can do to a reachable card: nothing, when no
    handler awaits it, or resume the handler that does. *)
Lemma step_Settle_cases m pid o :
  Inv m ->
  step m (Settle pid o) = m \/
  exists tk, In tk (pending m) /\ task_pid tk = pid /\
    awaited (task_call tk) = true /\
    step m (Settle pid o)
    = run (resume (task_call tk) o)
          (mkMachine (props m) (st m) (log m ++ [Settled pid o])
                     (remove_task pid (pending m)) (next_pid m) (unhandled m)).
Proof.
  intros HI. destruct (find_task pid (pending m)) as [tk|] eqn:Ef.
  - right. exists tk. destruct (find_task_Some _ _ _ Ef) as [Hin Hpid].
    pose proof (proj1 (List.Forall_forall _ _) (inv_tasks m HI) tk Hin)
      as (Haw & Hk & _).
    repeat split; try assumption. now apply step_Settle_found.
  - left. cbn. now rewrite Ef.
Qed.

(** X1: the menu is open exactly from a click on the menu button to the
    next click on an entry or outside, and the dialog from the entry
    Edit Info to its close: no handler, and no completion of one, touches
    either. *)
Theorem menu_and_dialog_state (m : machine) (ev : event) :
  reachable m ->
  anchorEl (st (step m ev))
  = match ev with
    | ClickMenu el => Some el
    | CloseMenu | ClickMenuItem _ => None
    | _ => anchorEl (st m)
    end /\
  open (st (step m ev))
  = match ev with
    | ClickMenuItem Edit_Info => true
    | CloseDialog => false
    | _ => open (st m)
    end.
Proof.
  intros Hr. apply Inv_reachable in Hr.
  assert (Hsel : forall m', Inv m' ->
            anchorEl (st (run (handleSelect (props m')) m')) = anchorEl (st m') /\
            open (st (run (handleSelect (props m')) m')) = open (st m')).
  { intros m' _. destruct (lockSelect (st m')) eqn:El;
      [now rewrite run_select_locked|].
    destruct (selected (props m')) eqn:Es; [now rewrite run_select_selected|].
    now rewrite run_select_start. }
  assert (Hupd : forall proxy m', Inv m' ->
            anchorEl (st (run (handleUpdate (props m') proxy) m')) = anchorEl (st m') /\
            open (st (run (handleUpdate (props m') proxy) m')) = open (st m')).
  { intros proxy m' HI'. destruct (lockUpdate (st m')) eqn:El;
      [now rewrite run_update_locked|].
    rewrite run_update_start; [split; reflexivity|apply HI'|exact El]. }
  assert (Hdel : forall m', Inv m' ->
            anchorEl (st (run (handleDelete (props m')) m')) = anchorEl (st m') /\
            open (st (run (handleDelete (props m')) m')) = open (st m')).
  { intros m' _. destruct (lockDelete (st m')) eqn:El;
      [now rewrite run_delete_locked|]. now rewrite run_delete_start. }
  pose proof (Inv_setAnchorEl None m Hr) as Hr'.
  destruct ev as [| | |el| |key| |b|it o|pid o]; cbn [step menuMapping];
    try (split; reflexivity).
  - apply (Hsel m Hr).
  - apply (Hupd false m Hr).
  - rewrite run_handleClick. destruct key; cbn [menuMapping];
      try (split; reflexivity).
    + apply (Hsel _ Hr').
    + apply (Hupd false _ Hr').
    + apply (Hupd true _ Hr').
    + apply (Hdel _ Hr').
  - destruct (step_Settle_cases m pid o Hr) as [E|(tk & _ & _ & Haw & E)];
      cbn [step] in E; rewrite E; [split; reflexivity|].
    destruct (task_call tk); try discriminate; destruct o; split; reflexivity.
Qed.

Lemma calls_of_disjoint a b c :
  calls_of a c = true -> a <> b -> calls_of b c = false.
Proof. destruct a, b, c; cbn; congruence. Qed.

(** A trigger of a guarded action suspends at most one new handler, on a
    call of that action. *)
Lemma step_trigger_pending m ev a :
  Inv m -> trigger_of ev = Some a ->
  pending (step m ev) = pending m \/
  exists c k, calls_of a c = true /\
    pending (step m ev) = pending m ++ [mkTask (next_pid m) c k].
Proof.
  intros HI Ht.
  destruct (Nat.eq_dec (in_flight (calls_of a) m) 0) as [Hz|Hnz].
  2:{ left. rewrite (step_trigger_locked m ev a HI Ht) by lia.
      apply pending_dismiss. }
  rewrite (lock_of_in_flight m a HI) in Hz.
  destruct ev as [| | | | |key| | | |]; try discriminate;
    [| |destruct key; try discriminate];
    injection Ht as <-; cbn [step menuMapping]; rewrite ?run_handleClick.
  - destruct (selected (props m)) eqn:Es.
    + left. now rewrite run_select_selected.
    + right. rewrite run_select_start;
        [|now destruct (lockSelect (st m))|exact Es].
      eexists _, _. split; [|reflexivity]. reflexivity.
  - right. rewrite run_update_start;
      [|apply HI|now destruct (lockUpdate (st m))].
    eexists _, _. split; [|reflexivity]. reflexivity.
  - destruct (selected (props m)) eqn:Es.
    + left. now rewrite run_select_selected.
    + right. rewrite run_select_start;
        [|cbn; now destruct (lockSelect (st m))|exact Es].
      eexists _, _. split; [|reflexivity]. reflexivity.
  - right. change (handleUpdate (props m))
      with (handleUpdate (props (run (setAnchorEl None) m))).
    rewrite (run_update_start false (run (setAnchorEl None) m));
      [|apply HI|cbn; now destruct (lockUpdate (st m))].
    eexists _, _. split; [|reflexivity]. reflexivity.
  - right. change (handleUpdate (props m))
      with (handleUpdate (props (run (setAnchorEl None) m))).
    rewrite (run_update_start true (run (setAnchorEl None) m));
      [|apply HI|cbn; now destruct (lockUpdate (st m))].
    eexists _, _. split; [|reflexivity]. reflexivity.
  - right. rewrite run_delete_start;
      [|cbn; now destruct (lockDelete (st m))].
    eexists _, _. split; [|reflexivity]. reflexivity.
Qed.

(** Settling the promise of a suspended handler removes it, and suspends
    [handleSelect] again when [setProfilesConfig] resolved. *)
Lemma step_Settle_pending_list m tk o :
  Inv m -> In tk (pending m) ->
  pending (step m (Settle (task_pid tk) o))
  = remove_task (task_pid tk) (pending m)
    ++ (if finishes (task_call tk) o then []
        else [mkTask (next_pid m) deleteConnections (resume deleteConnections)]).
Proof.
  intros HI Hin. rewrite (step_Settle_pending m tk o HI Hin).
  pose proof (proj1 (List.Forall_forall _ _) (inv_tasks m HI) tk Hin)
    as (Haw & _).
  destruct (task_call tk); try discriminate; destruct o; cbn;
    now rewrite ?app_nil_r.
Qed.

(** X2: the three guarded actions do not interfere. A trigger of one
    action, whether it starts or is dropped, and the settlement of one of
    its calls leave the calls in flight of the other two as they are; and
    an action at rest starts whatever the other two are doing. *)
Theorem guarded_actions_are_independent (m : machine) (a b : guarded) :
  reachable m -> a <> b ->
  (forall ev, trigger_of ev = Some a ->
     in_flight (calls_of b) (step m ev) = in_flight (calls_of b) m) /\
  (forall tk o, In tk (pending m) -> calls_of a (task_call tk) = true ->
     in_flight (calls_of b) (step m (Settle (task_pid tk) o))
     = in_flight (calls_of b) m) /\
  (forall ev, trigger_of ev = Some a -> in_flight (calls_of a) m = 0 ->
     (a = Selecting -> selected (props m) = false) ->
     in_flight (calls_of a) (step m ev) = 1).
Proof.
  intros Hr Hab. apply Inv_reachable in Hr. split; [|split].
  - intros ev Ht. unfold in_flight.
    destruct (step_trigger_pending m ev a Hr Ht) as [->|(c & k & Hc & ->)];
      [reflexivity|].
    rewrite count_push, (calls_of_disjoint a b c Hc Hab). unfold bool_to_nat. lia.
  - intros tk o Hin Hk. unfold in_flight.
    rewrite (step_Settle_pending_list m tk o Hr Hin).
    pose proof (count_remove (calls_of b) (task_pid tk) (pending m) tk
                  (inv_nodup m Hr) Hin eq_refl) as Hc.
    rewrite (calls_of_disjoint a b _ Hk Hab) in Hc.
    rewrite count_app.
    destruct (finishes (task_call tk) o) eqn:Ef.
    + change (count (calls_of b) []) with 0. unfold bool_to_nat in Hc. lia.
    + assert (Ha : a = Selecting).
      { destruct (task_call tk); try discriminate.
        destruct a; try discriminate. reflexivity. }
      subst a. rewrite count_cons. cbn [task_call].
      rewrite (calls_of_disjoint Selecting b deleteConnections eq_refl Hab).
      change (count (calls_of b) []) with 0. unfold bool_to_nat in *. lia.
  - intros ev Ht Hz Hs.
    destruct (step_trigger_free m ev a Hr Ht Hz Hs) as (c & _ & _ & Hn).
    exact Hn.
Qed.

Lemma length_awaited ts :
  Forall (fun tk => awaited (task_call tk) = true) ts ->
  length ts = count is_select_call ts + count is_update_call ts
              + count is_delete_call ts.
Proof.
  induction ts as [|tk ts IH]; intros H; [reflexivity|].
  inversion H as [|? ? Ha Hts]; subst.
  rewrite !count_cons. cbn [length]. rewrite (IH Hts).
  destruct (task_call tk); try discriminate; cbn; lia.
Qed.

(** X3: whatever the user clicks and however the promises settle, each
    guarded action has at most one collaborator call in flight, so the
    card never has more than three. *)
Theorem at_most_one_call_per_action (it : Profile.Item)
    (o : option Profile.Option) (sel : bool) (evs : list event) :
  let m := exec (mount it o sel) evs in
  (forall a, in_flight (calls_of a) m <= 1) /\ length (pending m) <= 3.
Proof.
  intros m. assert (HI : Inv m) by apply Inv_exec, Inv_mount.
  assert (H1 : forall a, in_flight (calls_of a) m <= 1).
  { intros a. rewrite (lock_of_in_flight m a HI).
    destruct a; [destruct (lockSelect (st m))|destruct (lockUpdate (st m))
                |destruct (lockDelete (st m))]; cbn; lia. }
  split; [exact H1|].
  rewrite (length_awaited (pending m)).
  - pose proof (H1 Selecting). pose proof (H1 Updating). pose proof (H1 Deleting).
    unfold in_flight in *. cbn [calls_of] in *. lia.
  - eapply List.Forall_impl; [|apply (inv_tasks m HI)].
    intros tk (Ha & _). exact Ha.
Qed.

(** X4: delete is guarded by its lock alone. Neither the trigger nor the
    settlement of [deleteProfile] touches a loading flag; the settlement
    releases the lock on both outcomes, and a resolved [deleteProfile]
    notifies nobody. *)
Theorem delete_is_guarded_without_flag (m : machine) :
  reachable m ->
  loading (st (step m (ClickMenuItem Delete))) = loading (st m) /\
  (forall tk o, In tk (pending m) -> is_delete_call (task_call tk) = true ->
     let m' := step m (Settle (task_pid tk) o) in
     loading (st m') = loading (st m) /\
     lockDelete (st m') = false /\
     in_flight is_delete_call m' = 0 /\
     (o = Resolved -> log m' = log m ++ [Settled (task_pid tk) Resolved])).
Proof.
  intros Hr. apply Inv_reachable in Hr. split.
  - cbn [step menuMapping]. rewrite run_handleClick.
    destruct (lockDelete (st m)) eqn:El.
    + now rewrite run_delete_locked.
    + now rewrite run_delete_start.
  - intros tk o Hin Hk m'.
    pose proof (Inv_step m (Settle (task_pid tk) o) Hr) as HI'. fold m' in HI'.
    unfold in_flight. rewrite (inv_delete m' HI').
    subst m'. rewrite (step_Settle_pending m tk o Hr Hin).
    destruct (task_call tk); try discriminate; destruct o;
      repeat split; try reflexivity; discriminate.
Qed.

(** X5: when [deleteConnections] rejects, the profile has been switched
    already and stays so: no further backend call is made, the user is told
    "Error setting profile" (or the fetch-error text) as for a failed
    switch, and the action is over. When it resolves, the action ends
    without a word. *)
Theorem clear_connections_failure_is_reported_as_select_error
    (m : machine) (tk : task) :
  reachable m -> In tk (pending m) -> task_call tk = deleteConnections ->
  log (step m (Settle (task_pid tk) Resolved))
  = log m ++ [Settled (task_pid tk) Resolved] /\
  (forall e,
     log (step m (Settle (task_pid tk) (Rejected e)))
     = log m ++ [Settled (task_pid tk) (Rejected e);
                 Called (message (select_error_text e) (t "Error" []) "error")]) /\
  (forall o,
     in_flight is_select_call (step m (Settle (task_pid tk) o)) = 0 /\
     card (loading (st (step m (Settle (task_pid tk) o)))) = false).
Proof.
  intros Hr Hin Hc. apply Inv_reachable in Hr. split; [|split].
  - rewrite (step_Settle_pending m tk _ Hr Hin), Hc. reflexivity.
  - intros e. rewrite (step_Settle_pending m tk _ Hr Hin), Hc.
    cbn. now rewrite <- app_assoc.
  - intros o.
    pose proof (Inv_step m (Settle (task_pid tk) o) Hr) as HI'.
    unfold in_flight. rewrite (inv_select _ HI'), <- (inv_card _ HI').
    rewrite (step_Settle_pending m tk _ Hr Hin), Hc.
    destruct o; split; reflexivity.
Qed.

(** What an update does to the heap, to the props and to the log, for
    each of its three triggers. *)
Lemma step_update_start m ev :
  Inv m -> lockUpdate (st m) = false -> trigger_of ev = Some Updating ->
  let proxy := match ev with ClickMenuItem Update_Proxy => true | _ => false end in
  props (step m ev) = props m /\
  heap (st (step m ev)) = heap_after_update m proxy /\
  lockUpdate (st (step m ev)) = true /\
  next_pid (step m ev) = S (next_pid m) /\
  log (step m ev)
  = log m ++ [Invoked (next_pid m)
                (updateProfile (Profile.uid (item (props m)))
                               (resolve_options (stored m) proxy))] /\
  In (mkTask (next_pid m)
        (updateProfile (Profile.uid (item (props m)))
                       (resolve_options (stored m) proxy))
        (resume (updateProfile (Profile.uid (item (props m)))
                               (resolve_options (stored m) proxy))))
     (pending (step m ev)).
Proof.
  intros HI Hl Ht.
  destruct ev as [| | | | |key| | | |]; try discriminate;
    [|destruct key; try discriminate]; cbn [step menuMapping];
    rewrite ?run_handleClick.
  - rewrite run_update_start; [|apply HI|exact Hl].
    repeat split. cbn. apply List.in_or_app. right. now left.
  - change (handleUpdate (props m))
      with (handleUpdate (props (run (setAnchorEl None) m))).
    rewrite (run_update_start false (run (setAnchorEl None) m));
      [|apply HI|exact Hl].
    repeat split. cbn. apply List.in_or_app. right. now left.
  - change (handleUpdate (props m))
      with (handleUpdate (props (run (setAnchorEl None) m))).
    rewrite (run_update_start true (run (setAnchorEl None) m));
      [|apply HI|exact Hl].
    repeat split. cbn. apply List.in_or_app. right. now left.
Qed.

Lemma heap_after_update_lookup m proxy l x :
  (proxy = true -> Profile.option (item (props m)) = None) ->
  heap (st m) !! l = Some x -> heap_after_update m proxy !! l = Some x.
Proof.
  intros Hp Hl. unfold heap_after_update.
  destruct (Profile.option (item (props m))) as [l'|] eqn:E.
  - destruct proxy; [|exact Hl]. now discriminate Hp.
  - now apply lookup_app_l_Some.
Qed.

(** X6: the option objects are written by one path only. Unless the event
    is the entry Update(Proxy) on an item that has an option object, every
    object on the heap holds after the event what it held before; and
    unless the parent passes a new item, so does the option object of the
    item. *)
Theorem option_objects_are_written_only_via_proxy (m : machine) (ev : event) :
  reachable m ->
  (ev = ClickMenuItem Update_Proxy -> Profile.option (item (props m)) = None) ->
  (forall l x, heap (st m) !! l = Some x -> heap (st (step m ev)) !! l = Some x) /\
  ((forall it o, ev <> RenderItem it o) -> stored (step m ev) = stored m).
Proof.
  intros Hr Hev. apply Inv_reachable in Hr.
  assert (Hframe :
    (forall it o, ev <> RenderItem it o) ->
    (forall l x, heap (st m) !! l = Some x -> heap (st (step m ev)) !! l = Some x) ->
    item (props (step m ev)) = item (props m) ->
    stored (step m ev) = stored m).
  { intros _ Hh Hp. unfold stored. rewrite Hp.
    destruct (Profile.option (item (props m))) as [l|] eqn:E; [|reflexivity].
    destruct (lookup_lt_is_Some_2 (heap (st m)) l (inv_heap m Hr l E)) as [x Hx].
    rewrite Hx. now apply Hh. }
  assert (Hsel : forall p m', heap (st (run (handleSelect p) m')) = heap (st m')
                         /\ props (run (handleSelect p) m') = props m').
  { intros p m'. destruct (lockSelect (st m')) eqn:El;
      [now rewrite run_select_locked|].
    destruct (selected p) eqn:Es; [now rewrite run_select_selected|].
    now rewrite run_select_start. }
  assert (Hdel : forall p m', heap (st (run (handleDelete p) m')) = heap (st m')
                         /\ props (run (handleDelete p) m') = props m').
  { intros p m'. destruct (lockDelete (st m')) eqn:El;
      [now rewrite run_delete_locked|]. now rewrite run_delete_start. }
  assert (Hupd : forall ev', trigger_of ev' = Some Updating ->
            let proxy := match ev' with ClickMenuItem Update_Proxy => true | _ => false end in
            (proxy = true -> Profile.option (item (props m)) = None) ->
            (forall l x, heap (st m) !! l = Some x ->
                         heap (st (step m ev')) !! l = Some x) /\
            props (step m ev') = props m).
  { intros ev' Ht proxy Hp. destruct (lockUpdate (st m)) eqn:El.
    - rewrite (step_trigger_locked m ev' Updating Hr Ht).
      + destruct ev'; split; auto.
      + unfold in_flight. cbn [calls_of]. rewrite (inv_update m Hr), El. cbn. lia.
    - destruct (step_update_start m ev' Hr El Ht) as (Hprops & Hheap & _).
      split; [|exact Hprops]. intros l x Hl. rewrite Hheap.
      now apply heap_after_update_lookup. }
  assert (Hmain :
    (forall l x, heap (st m) !! l = Some x -> heap (st (step m ev)) !! l = Some x) /\
    ((forall it o, ev <> RenderItem it o) ->
     item (props (step m ev)) = item (props m))).
  { destruct ev as [| | |el| |key| |b|it o|pid o].
    - cbn [step]. destruct (Hsel (props m) m) as [-> ->]. auto.
    - split; auto.
    - destruct (Hupd ClickUpdate eq_refl) as [H1 H2]; [discriminate|].
      split; [exact H1|]. intros _. now rewrite H2.
    - split; auto.
    - split; auto.
    - destruct key.
      + cbn [step menuMapping]. rewrite run_handleClick.
        destruct (Hsel (props m) (run (setAnchorEl None) m)) as [-> ->]. auto.
      + split; auto.
      + split; auto.
      + split; auto.
      + destruct (Hupd (ClickMenuItem Update) eq_refl) as [H1 H2]; [discriminate|].
        split; [exact H1|]. intros _. now rewrite H2.
      + destruct (Hupd (ClickMenuItem Update_Proxy) eq_refl) as [H1 H2];
          [intros _; now apply Hev|].
        split; [exact H1|]. intros _. now rewrite H2.
      + cbn [step menuMapping]. rewrite run_handleClick.
        destruct (Hdel (props m) (run (setAnchorEl None) m)) as [-> ->]. auto.
    - split; auto.
    - split; auto.
    - split.
      + intros l x Hl. cbn. destruct o; [now apply lookup_app_l_Some|exact Hl].
      + intros Hne. now destruct (Hne it o).
    - destruct (step_Settle_cases m pid o Hr) as [E|(tk & _ & _ & Haw & E)];
        cbn [step] in E |- *; rewrite E; [auto|].
      destruct (task_call tk); try discriminate; destruct o; auto.
  }
  destruct Hmain as [Hh Hp]. split; [exact Hh|].
  intros Hne. apply Hframe; auto.
Qed.

Lemma step_Settle_update m tk o :
  Inv m -> In tk (pending m) -> is_update_call (task_call tk) = true ->
  props (step m (Settle (task_pid tk) o)) = props m /\
  heap (st (step m (Settle (task_pid tk) o))) = heap (st m) /\
  lockUpdate (st (step m (Settle (task_pid tk) o))) = false /\
  next_pid (step m (Settle (task_pid tk) o)) = next_pid m /\
  log (step m (Settle (task_pid tk) o)) = log m ++ [Settled (task_pid tk) o].
Proof.
  intros HI Hin Hk. rewrite (step_Settle_pending m tk o HI Hin).
  destruct (task_call tk); try discriminate; destruct o; repeat split.
Qed.

Lemma resolve_options_fixed (o : option Profile.Option) (proxy : bool) :
  resolve_options (Some (resolve_options o true)) proxy = resolve_options o true.
Proof.
  unfold resolve_options. cbn.
  destruct (Profile.self_proxy (default _ o)), proxy; reflexivity.
Qed.

(** X7: what Update(Proxy) resolved stays. On an item that has an option
    object, once an update via proxy has settled (either way), the next
    update sends the very same options again, from whichever of the three
    triggers: the plain update has become an update via proxy (or via
    self-proxy), and a second Update(Proxy) switches nothing back. *)
Theorem update_via_proxy_is_sticky (m : machine) (l : nat) (o : outcome)
    (ev : event) :
  reachable m -> in_flight is_update_call m = 0 ->
  Profile.option (item (props m)) = Some l ->
  trigger_of ev = Some Updating ->
  let sent := updateProfile (Profile.uid (item (props m)))
                            (resolve_options (stored m) true) in
  log (exec m [ClickMenuItem Update_Proxy; Settle (next_pid m) o; ev])
  = log m ++ [Invoked (next_pid m) sent; Settled (next_pid m) o;
              Invoked (S (next_pid m)) sent].
Proof.
  intros Hr Hf Hl Ht sent. apply Inv_reachable in Hr.
  unfold in_flight in Hf. rewrite (inv_update m Hr) in Hf.
  assert (Hk : lockUpdate (st m) = false) by now destruct (lockUpdate (st m)).
  cbn [exec fold_left].
  set (m1 := step m (ClickMenuItem Update_Proxy)).
  destruct (step_update_start m (ClickMenuItem Update_Proxy) Hr Hk eq_refl)
    as (Hp1 & Hh1 & _ & Hn1 & Hl1 & Hin1). fold m1 in Hp1, Hh1, Hn1, Hl1, Hin1.
  cbv zeta in Hh1, Hl1, Hin1. fold sent in Hl1, Hin1.
  assert (HI1 : Inv m1) by now apply Inv_step.
  set (tk := mkTask (next_pid m) sent (resume sent)) in Hin1.
  destruct (step_Settle_update m1 tk o HI1 Hin1 eq_refl)
    as (Hp2 & Hh2 & Hk2 & Hn2 & Hl2).
  change (task_pid tk) with (next_pid m) in *.
  set (m2 := step m1 (Settle (next_pid m) o)) in *.
  assert (HI2 : Inv m2) by now apply Inv_step.
  destruct (step_update_start m2 ev HI2 Hk2 Ht) as (_ & _ & _ & _ & Hl3 & _).
  rewrite Hl3, Hl2, Hl1, Hn2, Hn1, Hp2, Hp1.
  assert (Hs : stored m2 = Some (resolve_options (stored m) true)).
  { unfold stored at 1. rewrite Hp2, Hp1, Hl, Hh2, Hh1.
    unfold heap_after_update. rewrite Hl.
    apply list_lookup_insert_eq. now apply (inv_heap m Hr). }
  rewrite Hs, resolve_options_fixed. subst sent.
  now rewrite <- !app_assoc.
Qed.

(** X8: a handler in flight is not affected by a re-render. Whether the
    parent passes a new [selected] or a new item before or after a promise
    settles makes no difference to the card: the handler goes on with what
    it read when it was triggered. *)
Theorem rerender_commutes_with_settlement (m : machine) (pid : nat)
    (o : outcome) :
  reachable m ->
  (forall b, step (step m (RenderSelected b)) (Settle pid o)
             = step (step m (Settle pid o)) (RenderSelected b)) /\
  (forall it op, step (step m (RenderItem it op)) (Settle pid o)
                 = step (step m (Settle pid o)) (RenderItem it op)).
Proof.
  intros Hr. apply Inv_reachable in Hr. split.
  - intros b. cbn [step props st log pending next_pid unhandled].
    destruct (find_task pid (pending m)) as [tk|]; [|reflexivity].
    rewrite (run_props (task_k tk o)
               (mkMachine (props m) (st m) (log m ++ [Settled pid o])
                          (remove_task pid (pending m)) (next_pid m) (unhandled m))).
    now rewrite run_keeps_props.
  - intros it op. cbn [step].
    change (pending (load_item it op m)) with (pending m).
    destruct (find_task pid (pending m)) as [tk|] eqn:Ef; [|reflexivity].
    destruct (find_task_Some _ _ _ Ef) as [Hin _].
    pose proof (proj1 (List.Forall_forall _ _) (inv_tasks m Hr) tk Hin)
      as (Haw & Hk & _).
    rewrite Hk. destruct (task_call tk); try discriminate; destruct o;
      reflexivity.
Qed.

Lemma remove_task_snoc n l ts c k :
  Forall (task_ok n l) ts -> remove_task n (ts ++ [mkTask n c k]) = ts.
Proof.
  intros Hts. unfold remove_task. rewrite List.filter_app. cbn.
  rewrite Nat.eqb_refl. cbn. rewrite app_nil_r.
  apply remove_task_fresh. intros Hin.
  apply List.in_map_iff in Hin as (tk & Hpid & Hin).
  destruct (proj1 (List.Forall_forall _ _) Hts tk Hin) as (_ & _ & Hlt & _). lia.
Qed.

Lemma store_at_rest_select (s : store) :
  lockSelect s = false -> card (loading s) = false ->
  mkStore false (lockUpdate s) (lockDelete s)
          (mkLoading (update (loading s)) false)
          (anchorEl s) (open s) (heap s) = s.
Proof. destruct s as [? ? ? [? ?] ? ? ?]. cbn. now intros -> ->. Qed.

(** X10: a select that has run its course leaves the card as it found it.
    From rest, the click, then a rejection of [setProfilesConfig], or its
    resolution followed by either settlement of [deleteConnections], bring
    back the very store (locks, flags, menu, dialog, option objects) and
    the very list of suspended handlers of before. *)
Theorem completed_select_returns_card_to_rest (m : machine) :
  reachable m -> in_flight is_select_call m = 0 ->
  selected (props m) = false ->
  let n := next_pid m in
  (forall e,
     let m' := exec m [ClickCard; Settle n (Rejected e)] in
     st m' = st m /\ pending m' = pending m /\ props m' = props m) /\
  (forall o,
     let m' := exec m [ClickCard; Settle n Resolved; Settle (S n) o] in
     st m' = st m /\ pending m' = pending m /\ props m' = props m).
Proof.
  intros Hr Hf Hs n. apply Inv_reachable in Hr.
  unfold in_flight in Hf. rewrite (inv_select m Hr) in Hf.
  assert (Hl : lockSelect (st m) = false) by now destruct (lockSelect (st m)).
  assert (Hc : card (loading (st m)) = false) by now rewrite (inv_card m Hr).
  pose proof (inv_tasks m Hr) as Hts.
  set (c := setProfilesConfig (Profile.uid (item (props m)))).
  set (tk := mkTask n c (resume c)).
  set (m1 := step m ClickCard).
  assert (E1 : m1 = mkMachine (props m)
                 (mkStore true (lockUpdate (st m)) (lockDelete (st m))
                          (mkLoading (update (loading (st m))) true)
                          (anchorEl (st m)) (open (st m)) (heap (st m)))
                 (log m ++ [Invoked n c]) (pending m ++ [tk]) (S n) (unhandled m)).
  { subst m1. cbn [step]. now rewrite run_select_start. }
  assert (HI1 : Inv m1) by now apply Inv_step.
  assert (Hin1 : In tk (pending m1)).
  { rewrite E1. cbn. apply List.in_or_app. right. now left. }
  assert (Hrm : remove_task n (pending m1) = pending m).
  { rewrite E1. cbn [pending]. now apply (remove_task_snoc n (log m)). }
  split.
  - intros e m'. subst m'. cbn [exec fold_left]. fold m1.
    change n with (task_pid tk).
    rewrite (step_Settle_pending m1 tk _ HI1 Hin1).
    change (task_pid tk) with n. rewrite Hrm.
    cbn [task_call tk]. subst c. rewrite run_resume_set_rejected.
    cbn [st pending props]. rewrite E1. cbn [st props lockUpdate lockDelete
      loading update anchorEl open heap].
    split; [now apply store_at_rest_select|]. split; reflexivity.
  - intros o m'. subst m'. cbn [exec fold_left]. fold m1.
    set (m2 := step m1 (Settle n Resolved)).
    set (tk2 := mkTask (S n) deleteConnections (resume deleteConnections)).
    assert (E2 : m2 = mkMachine (props m) (st m1)
                   (log m1 ++ [Settled n Resolved; Invoked (S n) deleteConnections])
                   (pending m ++ [tk2]) (S (S n)) (unhandled m)).
    { subst m2. change n with (task_pid tk) at 1.
      rewrite (step_Settle_pending m1 tk _ HI1 Hin1).
      change (task_pid tk) with n. rewrite Hrm.
      cbn [task_call tk]. subst c. rewrite run_resume_set_resolved.
      cbn [props st log pending next_pid unhandled]. rewrite E1.
      cbn [props st log pending next_pid unhandled].
      now rewrite <- app_assoc. }
    assert (HI2 : Inv m2) by now apply Inv_step.
    assert (Hin2 : In tk2 (pending m2)).
    { rewrite E2. cbn. apply List.in_or_app. right. now left. }
    assert (Hrm2 : remove_task (S n) (pending m2) = pending m).
    { rewrite E2. cbn [pending].
      apply (remove_task_snoc (S n) (log m)).
      eapply List.Forall_impl; [|exact Hts].
      intros a (H1 & H2 & H3 & H4). repeat split; auto. }
    change (S n) with (task_pid tk2).
    rewrite (step_Settle_pending m2 tk2 _ HI2 Hin2).
    change (task_pid tk2) with (S n). rewrite Hrm2.
    cbn [task_call tk2].
    assert (Hst : st m2 = st m1) by now rewrite E2.
    assert (Hp : props m2 = props m) by now rewrite E2.
    destruct o as [|e]; [rewrite run_resume_del_resolved
                        |rewrite run_resume_del_rejected];
      cbn [st pending props]; rewrite Hst, Hp, E1;
      cbn [st props lockUpdate lockDelete loading update anchorEl open heap];
      (split; [now apply store_at_rest_select|]; split; reflexivity).
Qed.
End ProfileItem.

(** ** The traffic calculator *)

Lemma calc_without_usage (item : Profile.Item) :
  Profile.extra item = None ->
  Traffic.calc item
  = {| Traffic.progress := 0; Traffic.total := 0; Traffic.used := 0 |}.
Proof. intros H. unfold Traffic.calc. now rewrite H. Qed.

Example calc_30_20_100 :
  Traffic.calc (item_with (Some (usage 30 20 100)))
  = {| Traffic.progress := 50; Traffic.total := 100; Traffic.used := 50 |}.
Proof. reflexivity. Qed.

(** Over quota, the value is kept as it is. *)
Example calc_over_quota :
  Traffic.progress (Traffic.calc (item_with (Some (usage 150 50 100)))) = 200%float.
Proof. reflexivity. Qed.

(** Without usage data [calc] returns zeros, and the label of line 258
    divides them again. *)
Example percent_label_without_usage :
  PrimFloat.is_nan (Traffic.percent_label (item_with None)) = true.
Proof. reflexivity. Qed.

(** C1: with usage data whose [total] is [0], [calc] divides by it: no
    traffic gives [progress = NaN] and some traffic gives
    [progress = Infinity], where the specification wants [0] and a finite
    number. *)
Theorem calc_total_zero_is_not_guarded :
  let idle := Traffic.calc (item_with (Some (usage 0 0 0))) in
  let busy := Traffic.calc (item_with (Some (usage 30 20 0))) in
  PrimFloat.is_nan (Traffic.progress idle) = true /\
  PrimFloat.is_infinity (Traffic.progress busy) = true /\
  Traffic.is_finite (Traffic.progress idle) = false /\
  Traffic.is_finite (Traffic.progress busy) = false /\
  PrimFloat.eqb (Traffic.progress idle) 0 = false /\
  PrimFloat.eqb (Traffic.progress busy) 0 = false.
Proof. repeat split. Qed.

(** ** The rotating display *)

Example carousel_two_snippets :
  let s := TextCarousel.mount [Some "A"; Some "B"] in
  TextCarousel.render s = ["A"] /\
  TextCarousel.index (TextCarousel.exec s [TextCarousel.Tick 0]) = TextCarousel.Int 1 /\
  TextCarousel.render (TextCarousel.exec s [TextCarousel.Tick 0]) = ["B"] /\
  TextCarousel.index (TextCarousel.exec s [TextCarousel.Tick 0; TextCarousel.Tick 1])
  = TextCarousel.Int 0.
Proof. repeat split. Qed.

(** The effect arms an interval on mount whatever the nodes are. *)
Lemma mount_arms_interval (ns : list (option string)) :
  TextCarousel.intervals (TextCarousel.mount ns) = [0] /\
  TextCarousel.timer (TextCarousel.mount ns) = Some 0.
Proof. split; reflexivity. Qed.

(** No snippet is drawn when the filtered list is empty. *)
Lemma render_empty (s : TextCarousel.state) :
  TextCarousel.nodes s = [] -> TextCarousel.render s = [].
Proof. intros H. unfold TextCarousel.render. now rewrite H. Qed.

(** An unmounted carousel has cleared the interval it armed. *)
Example carousel_unmount :
  TextCarousel.intervals
    (TextCarousel.exec (TextCarousel.mount [Some "A"; Some "B"])
       [TextCarousel.Tick 0; TextCarousel.Unmount]) = [].
Proof. reflexivity. Qed.

Lemma clearInterval_own (h : nat) : TextCarousel.clearInterval (Some h) [h] = [].
Proof. cbn. now rewrite Nat.eqb_refl. Qed.

Lemma one_timer_run_effect (s : TextCarousel.state) :
  TextCarousel.mounted s = true -> TextCarousel.one_timer s ->
  TextCarousel.one_timer (TextCarousel.run_effect s).
Proof.
  unfold TextCarousel.one_timer, TextCarousel.run_effect. cbn.
  intros -> (h & -> & ->). exists (TextCarousel.next_handle s).
  now rewrite clearInterval_own.
Qed.

Lemma one_timer_nextNode (s : TextCarousel.state) :
  TextCarousel.one_timer s -> TextCarousel.one_timer (TextCarousel.nextNode s).
Proof.
  intros H. unfold TextCarousel.nextNode.
  destruct (TextCarousel.mounted s) eqn:Em; [|exact H]. cbn.
  destruct (TextCarousel.Object_is _ _); [exact H|].
  apply one_timer_run_effect; [reflexivity|].
  unfold TextCarousel.one_timer in *. cbn. now rewrite Em in H.
Qed.

Lemma one_timer_step (s : TextCarousel.state) (ev : TextCarousel.event) :
  TextCarousel.one_timer s -> TextCarousel.one_timer (TextCarousel.step s ev).
Proof.
  intros H. destruct ev as [h| |ns|]; cbn [TextCarousel.step].
  - destruct (existsb _ _); [now apply one_timer_nextNode | exact H].
  - now apply one_timer_nextNode.
  - exact H.
  - unfold TextCarousel.one_timer in *. cbn.
    destruct (TextCarousel.mounted s).
    + destruct H as (h & -> & ->). now rewrite clearInterval_own.
    + destruct H as (-> & ->). split; reflexivity.
Qed.

Lemma one_timer_exec (s : TextCarousel.state) (evs : list TextCarousel.event) :
  TextCarousel.one_timer s -> TextCarousel.one_timer (TextCarousel.exec s evs).
Proof.
  revert s. induction evs as [|ev evs IH]; intros s H; [exact H|].
  cbn. apply IH. now apply one_timer_step.
Qed.

(** C6: the carousel of a profile with neither [updated] nor [expire].
    Its filtered list is empty and no snippet is drawn, yet the effect has
    armed an interval on mount. When that interval fires, [index] becomes
    [(0 + 1) % 0 = NaN] and the effect arms the next interval, which goes
    on firing; and when the parent then passes a snippet, none is drawn,
    on that render and after the next tick alike. *)
Theorem carousel_empty_list_arms_timer :
  let s := TextCarousel.mount (TextCarousel.nodes_of (item_with None)) in
  let s' := TextCarousel.step s (TextCarousel.Tick 0) in
  let s'' := TextCarousel.step s' (TextCarousel.Render [Some "A"]) in
  TextCarousel.nodes s = [] /\ TextCarousel.render s = [] /\
  TextCarousel.timer s = Some 0 /\ TextCarousel.intervals s = [0] /\
  TextCarousel.nodes s' = [] /\ TextCarousel.index s' = TextCarousel.NaN /\
  TextCarousel.timer s' = Some 1 /\ TextCarousel.intervals s' = [1] /\
  TextCarousel.nodes s'' = ["A"] /\ TextCarousel.render s'' = [] /\
  TextCarousel.render (TextCarousel.step s'' (TextCarousel.Tick 1)) = [].
Proof. repeat split. Qed.

(** ** Further properties of the traffic calculator and of the display *)

(** X11: the bar and the label agree exactly when the profile has usage
    data. With usage data the label prints the very number that [calc]
    gives to the bar (over quota, unguarded division and all); without,
    the bar shows [0] and the label, which divides [0] by [0] once more,
    prints [NaN]. *)
Theorem label_agrees_with_bar_only_with_usage (item : Profile.Item) :
  match Profile.extra item with
  | Some _ => Traffic.percent_label item = Traffic.progress (Traffic.calc item)
  | None =>
      Traffic.progress (Traffic.calc item) = 0%float /\
      PrimFloat.is_nan (Traffic.percent_label item) = true
  end.
Proof.
  unfold Traffic.percent_label, Traffic.calc.
  destruct (Profile.extra item); [reflexivity|]. split; reflexivity.
Qed.

Lemma Object_is_eq (a b : TextCarousel.num) :
  TextCarousel.Object_is a b = true -> a = b.
Proof.
  destruct a, b; cbn; try discriminate; try reflexivity.
  intros H. apply Nat.eqb_eq in H. now subst.
Qed.

(** [nextNode] on a mounted carousel: the index advances, with or without
    a re-render, and nothing else that the display depends on changes. *)
Lemma nextNode_spec (s : TextCarousel.state) :
  TextCarousel.mounted s = true ->
  TextCarousel.index (TextCarousel.nextNode s)
  = TextCarousel.succ_mod (TextCarousel.index s) (length (TextCarousel.nodes s)) /\
  TextCarousel.props_nodes (TextCarousel.nextNode s) = TextCarousel.props_nodes s /\
  TextCarousel.mounted (TextCarousel.nextNode s) = true.
Proof.
  intros Hm. unfold TextCarousel.nextNode. rewrite Hm. cbn [negb orb].
  destruct (TextCarousel.Object_is _ _) eqn:E.
  - apply Object_is_eq in E. split; [now symmetry|]. split; [reflexivity|exact Hm].
  - cbn. auto.
Qed.

Lemma clicks_advance (n k : nat) (s : TextCarousel.state) (i : nat) :
  TextCarousel.mounted s = true -> TextCarousel.index s = TextCarousel.Int i ->
  length (TextCarousel.nodes s) = S n ->
  TextCarousel.index (TextCarousel.exec s (repeat TextCarousel.Click (S k)))
  = TextCarousel.Int ((i + S k) mod S n).
Proof.
  revert s i. induction k as [|k IH]; intros s i Hm Hi Hn;
    destruct (nextNode_spec s Hm) as (Hidx & Hnodes & Hm').
  - cbn [repeat TextCarousel.exec fold_left TextCarousel.step].
    rewrite Hidx, Hi, Hn. reflexivity.
  - change (TextCarousel.exec s (repeat TextCarousel.Click (S (S k))))
      with (TextCarousel.exec (TextCarousel.nextNode s)
              (repeat TextCarousel.Click (S k))).
    rewrite (IH (TextCarousel.nextNode s) ((i + 1) mod S n)); try assumption.
    + rewrite Nat.Div0.add_mod_idemp_l. f_equal. f_equal. lia.
    + rewrite Hidx, Hi, Hn. reflexivity.
    + unfold TextCarousel.nodes. now rewrite Hnodes.
Qed.

(** X12: a carousel with snippets cycles through them. After [k >= 1]
    advances from the index [i], the index is [(i + k) mod n] for the [n]
    snippets, also when [i] was out of range because the list had shrunk;
    from an index in range, [n] advances come back to it. *)
Theorem carousel_cycles_modulo_length (s : TextCarousel.state) (i : nat) :
  TextCarousel.mounted s = true -> TextCarousel.index s = TextCarousel.Int i ->
  TextCarousel.nodes s <> [] ->
  let n := length (TextCarousel.nodes s) in
  (forall k,
     TextCarousel.index (TextCarousel.exec s (repeat TextCarousel.Click (S k)))
     = TextCarousel.Int ((i + S k) mod n) /\ (i + S k) mod n < n) /\
  (i < n ->
   TextCarousel.index (TextCarousel.exec s (repeat TextCarousel.Click n))
   = TextCarousel.Int i).
Proof.
  intros Hm Hi Hne n.
  destruct (length (TextCarousel.nodes s)) as [|n'] eqn:En.
  { destruct (TextCarousel.nodes s); [now destruct Hne | discriminate]. }
  subst n. split.
  - intros k. split; [now apply clicks_advance|].
    apply Nat.mod_upper_bound. discriminate.
  - intros Hlt. rewrite (clicks_advance n' n' s i Hm Hi En).
    f_equal. replace (i + S n') with (i + 1 * S n') by lia.
    rewrite Nat.Div0.mod_add. now apply Nat.mod_small.
Qed.

(** X13: a tick of the interval that the current effect armed does what a
    click does, and a tick of any other interval, one that was cleared,
    does nothing. *)
Theorem only_the_armed_interval_advances (ns : list (option string))
    (evs : list TextCarousel.event) (h : nat) :
  let s := TextCarousel.exec (TextCarousel.mount ns) evs in
  (TextCarousel.timer s = Some h ->
   TextCarousel.step s (TextCarousel.Tick h)
   = TextCarousel.step s TextCarousel.Click) /\
  (TextCarousel.timer s <> Some h ->
   TextCarousel.step s (TextCarousel.Tick h) = s).
Proof.
  intros s.
  assert (H1 : TextCarousel.one_timer s).
  { apply one_timer_exec. exists 0. split; reflexivity. }
  unfold TextCarousel.one_timer in H1. cbn [TextCarousel.step].
  destruct (TextCarousel.mounted s).
  - destruct H1 as (h0 & Ht & Hi). rewrite Ht, Hi. cbn [existsb orb].
    split.
    + intros [= <-]. now rewrite Nat.eqb_refl.
    + intros Hne. destruct (Nat.eqb_spec h h0) as [->|_]; [now destruct Hne|].
      reflexivity.
  - destruct H1 as (Ht & Hi). rewrite Ht, Hi. cbn. split; [discriminate|auto].
Qed.

Lemma omap_imap_none (f : nat -> string -> option string) (l : list string) :
  (forall i x, f i x = None) -> omap id (imap f l) = [].
Proof.
  revert f. induction l as [|x l IH]; intros f Hf; [reflexivity|].
  cbn. rewrite Hf. cbn. apply IH. intros i y. apply Hf.
Qed.

Lemma omap_imap_at (n : nat) (l : list string) (k : nat)
    (f : nat -> string -> option string) :
  (forall i x, f i x = if Nat.eqb (k + i) n then Some x else None) ->
  omap id (imap f l)
  = if Nat.leb k n then option_list (l !! (n - k)) else [].
Proof.
  revert k f. induction l as [|x l IH]; intros k f Hf.
  - cbn. now destruct (Nat.leb k n).
  - assert (E : omap id (imap (f ∘ S) l)
                = if Nat.leb (S k) n then option_list (l !! (n - S k)) else []).
    { apply IH. intros i y. cbn. rewrite Hf. now rewrite Nat.add_succ_r. }
    change (omap id (imap f (x :: l)))
      with (match f 0 x with
            | Some y => y :: omap id (imap (f ∘ S) l)
            | None => omap id (imap (f ∘ S) l)
            end).
    rewrite E, Hf, Nat.add_0_r.
    destruct (Nat.eqb_spec k n) as [->|Hne].
    + rewrite Nat.leb_refl, Nat.sub_diag.
      destruct (Nat.leb_spec (S n) n); [lia|]. reflexivity.
    + destruct (Nat.leb_spec (S k) n), (Nat.leb_spec k n); try lia.
      * replace (n - k) with (S (n - S k)) by lia. reflexivity.
      * reflexivity.
Qed.

(** X14: the display shows the snippet at the index and nothing else: one
    snippet when the index is in range, none when it is out of range (the
    list shrank) or [NaN]. *)
Theorem render_shows_the_indexed_snippet (s : TextCarousel.state) :
  TextCarousel.render s
  = match TextCarousel.index s with
    | TextCarousel.Int n => option_list (TextCarousel.nodes s !! n)
    | TextCarousel.NaN => []
    end /\
  length (TextCarousel.render s) <= 1.
Proof.
  assert (H : TextCarousel.render s
              = match TextCarousel.index s with
                | TextCarousel.Int n => option_list (TextCarousel.nodes s !! n)
                | TextCarousel.NaN => []
                end).
  { unfold TextCarousel.render. destruct (TextCarousel.index s) as [n|].
    - rewrite (omap_imap_at n (TextCarousel.nodes s) 0); [|reflexivity].
      cbn. now rewrite Nat.sub_0_r.
    - now apply omap_imap_none. }
  split; [exact H|]. rewrite H.
  destruct (TextCarousel.index s) as [n|]; [|cbn; lia].
  destruct (TextCarousel.nodes s !! n); cbn; lia.
Qed.

Lemma step_keeps_NaN (s : TextCarousel.state) (ev : TextCarousel.event) :
  TextCarousel.index s = TextCarousel.NaN ->
  TextCarousel.index (TextCarousel.step s ev) = TextCarousel.NaN.
Proof.
  intros H.
  assert (Hn : TextCarousel.nextNode s = s).
  { unfold TextCarousel.nextNode. rewrite H. cbn. now rewrite orb_true_r. }
  destruct ev; cbn [TextCarousel.step]; rewrite ?Hn; try exact H.
  now destruct (existsb _ _).
Qed.

Lemma exec_keeps_NaN (s : TextCarousel.state) (evs : list TextCarousel.event) :
  TextCarousel.index s = TextCarousel.NaN ->
  TextCarousel.index (TextCarousel.exec s evs) = TextCarousel.NaN.
Proof.
  revert s. induction evs as [|ev evs IH]; intros s H; [exact H|].
  cbn. apply IH. now apply step_keeps_NaN.
Qed.

(** X15: one advance on an empty list blanks the display for good. A
    click on a mounted carousel whose filtered list is empty sets the index
    to [NaN]; whatever happens afterwards (new nodes, ticks, clicks), the
    index stays [NaN] and no snippet is shown. *)
Theorem advance_on_empty_list_blanks_for_good (s : TextCarousel.state)
    (evs : list TextCarousel.event) :
  TextCarousel.mounted s = true -> TextCarousel.nodes s = [] ->
  let s' := TextCarousel.exec (TextCarousel.step s TextCarousel.Click) evs in
  TextCarousel.index s' = TextCarousel.NaN /\ TextCarousel.render s' = [].
Proof.
  intros Hm Hn s'.
  assert (H : TextCarousel.index s' = TextCarousel.NaN).
  { apply exec_keeps_NaN. cbn [TextCarousel.step].
    destruct (nextNode_spec s Hm) as (-> & _ & _). rewrite Hn.
    now destruct (TextCarousel.index s). }
  split; [exact H|].
  unfold TextCarousel.render. rewrite H. now apply omap_imap_none.
Qed.

(** X16: with a single snippet the display is static. Clicks and ticks
    compute [(0 + 1) % 1 = 0], React sees the same state, and neither the
    index nor the interval armed on mount ever changes. *)
Theorem single_snippet_never_rearms (ns : list (option string))
    (evs : list TextCarousel.event) :
  length (omap id ns) = 1 ->
  Forall (fun ev => ev = TextCarousel.Click \/ exists h, ev = TextCarousel.Tick h) evs ->
  TextCarousel.exec (TextCarousel.mount ns) evs = TextCarousel.mount ns.
Proof.
  intros Hlen Hevs.
  assert (Hn : TextCarousel.nextNode (TextCarousel.mount ns) = TextCarousel.mount ns).
  { unfold TextCarousel.nextNode, TextCarousel.nodes. cbn. now rewrite Hlen. }
  induction Hevs as [|ev evs Hev _ IH]; [reflexivity|].
  cbn [TextCarousel.exec fold_left].
  replace (TextCarousel.step (TextCarousel.mount ns) ev) with (TextCarousel.mount ns).
  - exact IH.
  - destruct Hev as [->|[h ->]]; cbn [TextCarousel.step]; rewrite ?Hn;
      [reflexivity|]. now destruct (existsb _ _).
Qed.

(** ** The theorems of the card at concrete cards *)

Lemma card_selecting_reachable : reachable t0 js0 (card_selecting t0 js0).
Proof.
  exists (item_with None), (Some (Profile.mkOption false false)), false, [ClickCard].
  reflexivity.
Defined.

Lemma card_updating_reachable : reachable t0 js0 (card_updating t0 js0).
Proof.
  exists (item_with None), (Some (Profile.mkOption false false)), false, [ClickUpdate].
  reflexivity.
Defined.

Lemma card0_reachable : reachable t0 js0 card0.
Proof.
  exists (item_with None), (Some (Profile.mkOption false false)), false, [].
  reflexivity.
Defined.

Lemma card_clearing_reachable :
  reachable t0 js0 (exec t0 js0 card0 [ClickCard; Settle 0 Resolved]).
Proof.
  exists (item_with None), (Some (Profile.mkOption false false)), false,
         [ClickCard; Settle 0 Resolved].
  reflexivity.
Defined.

Lemma select_on_selected_is_noop_witness :
  selected (props card_selected) = true /\
  step t0 js0 card_selected ClickCard = card_selected /\
  step t0 js0 card_selected (ClickMenuItem Select)
  = step t0 js0 card_selected CloseMenu.
Proof.
  split; [reflexivity|].
  apply (select_on_selected_is_noop t0 js0 card_selected). reflexivity.
Defined.

Lemma guard_drops_reentrant_trigger_witness :
  (0 < in_flight (calls_of Selecting) (card_selecting t0 js0) /\
   step t0 js0 (card_selecting t0 js0) (ClickMenuItem Select)
   = dismiss (ClickMenuItem Select) (card_selecting t0 js0)) /\
  (in_flight (calls_of Updating) card0 = 0 /\
   exists c, calls_of Updating c = true /\
     invocations (log (exec t0 js0 card0 [ClickUpdate; ClickMenuItem Update_Proxy]))
     = invocations (log card0) ++ [c] /\
     in_flight (calls_of Updating)
       (exec t0 js0 card0 [ClickUpdate; ClickMenuItem Update_Proxy]) = 1).
Proof.
  split; split.
  - vm_compute. lia.
  - apply (guard_drops_reentrant_trigger t0 js0 (card_selecting t0 js0) Selecting
             (ClickMenuItem Select) ClickCard card_selecting_reachable
             eq_refl eq_refl).
    vm_compute. lia.
  - reflexivity.
  - apply (guard_drops_reentrant_trigger t0 js0 card0 Updating
             ClickUpdate (ClickMenuItem Update_Proxy) card0_reachable
             eq_refl eq_refl).
    + reflexivity.
    + discriminate.
Defined.

Lemma update_variants_share_guard_witness :
  in_flight is_update_call (card_updating t0 js0) = 1 /\
  update (loading (st (card_updating t0 js0))) = true /\
  step t0 js0 (card_updating t0 js0) (ClickMenuItem Update_Proxy)
  = dismiss (ClickMenuItem Update_Proxy) (card_updating t0 js0).
Proof.
  destruct (update_variants_share_guard t0 js0 (card_updating t0 js0)
              card_updating_reachable) as (_ & Hflag & _ & Hdrop).
  split; [reflexivity|]. split; [now apply Hflag|].
  apply Hdrop; [reflexivity|]. right. right. left. reflexivity.
Defined.

Lemma loading_flag_reset_on_completion_witness :
  let failed := Rejected (JsOther "offline") in
  let tk_set := mkTask 0 (setProfilesConfig "p1")
                       (resume t0 js0 (setProfilesConfig "p1")) in
  let tk_del := mkTask 1 deleteConnections (resume t0 js0 deleteConnections) in
  let tk_upd := mkTask 0 (updateProfile "p1" (Profile.mkOption false false))
                       (resume t0 js0 (updateProfile "p1" (Profile.mkOption false false))) in
  let clearing := exec t0 js0 card0 [ClickCard; Settle 0 Resolved] in
  (card (loading (st card0)) = false /\
   card (loading (st (step t0 js0 card0 ClickCard))) = true /\
   card (loading (st (step t0 js0 (card_selecting t0 js0) (Settle 0 Resolved)))) = true /\
   card (loading (st (step t0 js0 (card_selecting t0 js0) (Settle 0 failed)))) = false /\
   card (loading (st (step t0 js0 clearing (Settle 1 failed)))) = false) /\
  (update (loading (st card0)) = false /\
   update (loading (st (step t0 js0 card0 (ClickMenuItem Update_Proxy)))) = true /\
   update (loading (st (step t0 js0 (card_updating t0 js0) (Settle 0 failed)))) = false).
Proof.
  intros failed tk_set tk_del tk_upd clearing.
  destruct (loading_flag_reset_on_completion t0 js0 card0 card0_reachable)
    as (_ & _ & Hsel & Hupd & _).
  destruct (loading_flag_reset_on_completion t0 js0 (card_selecting t0 js0)
              card_selecting_reachable) as (_ & _ & _ & _ & Hkept & Hdone1).
  destruct (loading_flag_reset_on_completion t0 js0 clearing
              card_clearing_reachable) as (_ & _ & _ & _ & _ & Hdone2).
  destruct (loading_flag_reset_on_completion t0 js0 (card_updating t0 js0)
              card_updating_reachable) as (_ & _ & _ & _ & _ & Hdone3).
  assert (Hin1 : In tk_set (pending (card_selecting t0 js0))) by (left; reflexivity).
  assert (Hin2 : In tk_del (pending clearing)) by (left; reflexivity).
  assert (Hin3 : In tk_upd (pending (card_updating t0 js0))) by (left; reflexivity).
  split.
  - split; [reflexivity|].
    split; [exact (proj1 (Hsel ClickCard eq_refl eq_refl eq_refl))|].
    split; [exact (proj1 (Hkept tk_set "p1" Hin1 eq_refl))|].
    split.
    + exact (proj1 (proj1 (Hdone1 tk_set failed Hin1 eq_refl) eq_refl)).
    + exact (proj1 (proj1 (Hdone2 tk_del failed Hin2 eq_refl) eq_refl)).
  - split; [reflexivity|].
    split; [exact (proj1 (Hupd (ClickMenuItem Update_Proxy) eq_refl eq_refl))|].
    exact (proj1 (proj2 (Hdone3 tk_upd failed Hin3 eq_refl) eq_refl)).
Defined.

Lemma select_calls_are_sequential_witness :
  let tk := mkTask 0 (setProfilesConfig "p1") (resume t0 js0 (setProfilesConfig "p1")) in
  In tk (pending (card_selecting t0 js0)) /\
  log (step t0 js0 (card_selecting t0 js0) (Settle 0 Resolved))
  = log (card_selecting t0 js0)
    ++ [Settled 0 Resolved; Invoked 1 deleteConnections] /\
  log (step t0 js0 (card_selecting t0 js0) (Settle 0 (Rejected (JsOther "offline"))))
  = log (card_selecting t0 js0)
    ++ [Settled 0 (Rejected (JsOther "offline"));
        Called (message (select_error_text t0 (JsOther "offline")) (t0 "Error" []) "error")].
Proof.
  intros tk.
  destruct (select_calls_are_sequential t0 js0 (card_selecting t0 js0)
              card_selecting_reachable) as (_ & _ & Hsettle).
  assert (Hin : In tk (pending (card_selecting t0 js0))) by (left; reflexivity).
  destruct (Hsettle tk "p1" Hin eq_refl) as (Hok & Herr).
  split; [exact Hin|]. split; [exact Hok|].
  exact (proj1 (Herr (JsOther "offline"))).
Defined.

Lemma update_failure_is_not_notified_witness :
  let tk := mkTask 0 (updateProfile "p1" (Profile.mkOption false false))
                   (resume t0 js0 (updateProfile "p1" (Profile.mkOption false false))) in
  let m' := step t0 js0 (card_updating t0 js0)
                 (Settle 0 (Rejected (JsOther "offline"))) in
  In tk (pending (card_updating t0 js0)) /\
  messages (log m') = messages (log (card_updating t0 js0)) /\
  unhandled m' = unhandled (card_updating t0 js0) ++ [JsOther "offline"].
Proof.
  intros tk m'.
  assert (Hin : In tk (pending (card_updating t0 js0))) by (left; reflexivity).
  destruct (update_failure_is_not_notified t0 js0 (card_updating t0 js0) tk
              (JsOther "offline") card_updating_reachable Hin) as (Hupd & _).
  destruct (Hupd eq_refl) as (_ & Hmsg & Hun).
  split; [exact Hin|]. split; [exact Hmsg | exact Hun].
Defined.

Lemma update_options_resolution_witness :
  in_flight is_update_call card0 = 0 /\
  log (step t0 js0 card0 (ClickMenuItem Update_Proxy))
  = [Invoked 0 (updateProfile "p1" (Profile.mkOption true false))] /\
  log (step t0 js0 card0 ClickUpdate)
  = [Invoked 0 (updateProfile "p1" (Profile.mkOption false false))].
Proof.
  split; [reflexivity|].
  destruct (update_options_resolution t0 js0 card0 card0_reachable eq_refl)
    as (Hbutton & _ & Hproxy & _).
  split; [exact Hproxy | exact Hbutton].
Defined.

(** ** The further properties at concrete inputs *)

Lemma card_deleting_reachable :
  reachable t0 js0 (exec t0 js0 card0 [ClickMenuItem Delete]).
Proof.
  exists (item_with None), (Some (Profile.mkOption false false)), false,
         [ClickMenuItem Delete].
  reflexivity.
Defined.

Lemma menu_and_dialog_state_witness :
  anchorEl (st (step t0 js0 (exec t0 js0 card0 [ClickMenu 7])
                     (ClickMenuItem Edit_Info))) = None /\
  open (st (step t0 js0 (card_updating t0 js0) (ClickMenuItem Edit_Info))) = true /\
  open (st (step t0 js0 (card_updating t0 js0) (Settle 0 Resolved))) = false.
Proof.
  split; [reflexivity|]. split.
  - apply (menu_and_dialog_state t0 js0 (card_updating t0 js0)
             (ClickMenuItem Edit_Info) card_updating_reachable).
  - apply (menu_and_dialog_state t0 js0 (card_updating t0 js0)
             (Settle 0 Resolved) card_updating_reachable).
Defined.

Lemma guarded_actions_are_independent_witness :
  Updating <> Selecting /\
  in_flight is_select_call (step t0 js0 (card_selecting t0 js0) ClickUpdate) = 1 /\
  in_flight is_update_call (step t0 js0 (card_selecting t0 js0) ClickUpdate) = 1.
Proof.
  assert (Hne : Updating <> Selecting) by discriminate.
  destruct (guarded_actions_are_independent t0 js0 (card_selecting t0 js0)
              Updating Selecting card_selecting_reachable Hne)
    as (Hother & _ & Hstart).
  split; [exact Hne|]. split.
  - exact (eq_trans (Hother ClickUpdate eq_refl) eq_refl).
  - apply (Hstart ClickUpdate eq_refl); [reflexivity|discriminate].
Defined.

Lemma delete_is_guarded_without_flag_witness :
  let m := exec t0 js0 card0 [ClickMenuItem Delete] in
  let tk := mkTask 0 (deleteProfile "p1") (resume t0 js0 (deleteProfile "p1")) in
  let m' := step t0 js0 m (Settle 0 (Rejected (JsOther "busy"))) in
  In tk (pending m) /\ lockDelete (st m) = true /\
  loading (st m') = loading (st m) /\ lockDelete (st m') = false.
Proof.
  intros m tk m'.
  assert (Hin : In tk (pending m)) by (left; reflexivity).
  destruct (delete_is_guarded_without_flag t0 js0 m card_deleting_reachable)
    as (_ & Hsettle).
  destruct (Hsettle tk (Rejected (JsOther "busy")) Hin eq_refl)
    as (Hload & Hlock & _).
  split; [exact Hin|]. split; [reflexivity|]. split; [exact Hload | exact Hlock].
Defined.

Lemma clear_connections_failure_is_reported_as_select_error_witness :
  let m := exec t0 js0 card0 [ClickCard; Settle 0 Resolved] in
  let tk := mkTask 1 deleteConnections (resume t0 js0 deleteConnections) in
  In tk (pending m) /\
  log (step t0 js0 m (Settle 1 (Rejected (JsError "Error" "timeout"))))
  = log m ++ [Settled 1 (Rejected (JsError "Error" "timeout"));
              Called (message (select_error_text t0 (JsError "Error" "timeout"))
                              (t0 "Error" []) "error")].
Proof.
  intros m tk.
  assert (Hin : In tk (pending m)) by (left; reflexivity).
  destruct (clear_connections_failure_is_reported_as_select_error t0 js0 m tk
              card_clearing_reachable Hin eq_refl) as (_ & Herr & _).
  split; [exact Hin|]. exact (Herr (JsError "Error" "timeout")).
Defined.

Lemma option_objects_are_written_only_via_proxy_witness :
  stored (step t0 js0 card0 ClickUpdate) = stored card0 /\
  stored (step t0 js0 (card_updating t0 js0) (Settle 0 Resolved))
  = stored (card_updating t0 js0).
Proof.
  split.
  - apply (option_objects_are_written_only_via_proxy t0 js0 card0 ClickUpdate
             card0_reachable); discriminate.
  - apply (option_objects_are_written_only_via_proxy t0 js0 (card_updating t0 js0)
             (Settle 0 Resolved) card_updating_reachable); discriminate.
Defined.

Lemma update_via_proxy_is_sticky_witness :
  in_flight is_update_call card0 = 0 /\
  Profile.option (item (props card0)) = Some 0 /\
  log (exec t0 js0 card0
         [ClickMenuItem Update_Proxy; Settle 0 (Rejected (JsOther "offline"));
          ClickUpdate])
  = [Invoked 0 (updateProfile "p1" (Profile.mkOption true false));
     Settled 0 (Rejected (JsOther "offline"));
     Invoked 1 (updateProfile "p1" (Profile.mkOption true false))].
Proof.
  split; [reflexivity|]. split; [reflexivity|].
  apply (update_via_proxy_is_sticky t0 js0 card0 0 (Rejected (JsOther "offline"))
           ClickUpdate card0_reachable); reflexivity.
Defined.

Lemma rerender_commutes_with_settlement_witness :
  step t0 js0 (step t0 js0 (card_selecting t0 js0) (RenderSelected true))
       (Settle 0 Resolved)
  = step t0 js0 (step t0 js0 (card_selecting t0 js0) (Settle 0 Resolved))
         (RenderSelected true).
Proof.
  apply (rerender_commutes_with_settlement t0 js0 (card_selecting t0 js0) 0
           Resolved card_selecting_reachable).
Defined.

Lemma completed_select_returns_card_to_rest_witness :
  in_flight is_select_call card0 = 0 /\ selected (props card0) = false /\
  st (exec t0 js0 card0 [ClickCard; Settle 0 Resolved;
                         Settle 1 (Rejected (JsOther "offline"))])
  = st card0.
Proof.
  split; [reflexivity|]. split; [reflexivity|].
  destruct (completed_select_returns_card_to_rest t0 js0 card0 card0_reachable
              eq_refl eq_refl) as (_ & Hdone).
  exact (proj1 (Hdone (Rejected (JsOther "offline")))).
Defined.

Lemma carousel_cycles_modulo_length_witness :
  let s := TextCarousel.mount [Some "A"; None; Some "B"] in
  TextCarousel.mounted s = true /\
  TextCarousel.index (TextCarousel.exec s (repeat TextCarousel.Click 3))
  = TextCarousel.Int 1 /\
  TextCarousel.index (TextCarousel.exec s (repeat TextCarousel.Click 2))
  = TextCarousel.Int 0.
Proof.
  intros s.
  assert (Hne : TextCarousel.nodes s <> []) by discriminate.
  destruct (carousel_cycles_modulo_length s 0 eq_refl eq_refl Hne)
    as (Hadv & Hperiod).
  split; [reflexivity|]. split.
  - exact (proj1 (Hadv 2)).
  - apply Hperiod. cbn. lia.
Defined.

Lemma only_the_armed_interval_advances_witness :
  let s := TextCarousel.exec (TextCarousel.mount [Some "A"; Some "B"])
                             [TextCarousel.Tick 0] in
  TextCarousel.timer s = Some 1 /\
  TextCarousel.step s (TextCarousel.Tick 1)
  = TextCarousel.step s TextCarousel.Click /\
  TextCarousel.step s (TextCarousel.Tick 0) = s.
Proof.
  intros s. split; [reflexivity|]. split.
  - apply (only_the_armed_interval_advances [Some "A"; Some "B"]
             [TextCarousel.Tick 0] 1). reflexivity.
  - apply (only_the_armed_interval_advances [Some "A"; Some "B"]
             [TextCarousel.Tick 0] 0). discriminate.
Defined.

Lemma advance_on_empty_list_blanks_for_good_witness :
  let s := TextCarousel.mount [None; None] in
  TextCarousel.mounted s = true /\ TextCarousel.nodes s = [] /\
  TextCarousel.render
    (TextCarousel.exec (TextCarousel.step s TextCarousel.Click)
       [TextCarousel.Render [Some "A"; Some "B"]; TextCarousel.Click]) = [].
Proof.
  intros s. split; [reflexivity|]. split; [reflexivity|].
  exact (proj2 (advance_on_empty_list_blanks_for_good s
                  [TextCarousel.Render [Some "A"; Some "B"]; TextCarousel.Click]
                  eq_refl eq_refl)).
Defined.

Lemma single_snippet_never_rearms_witness :
  length (omap id [None; Some "A"]) = 1 /\
  TextCarousel.exec (TextCarousel.mount [None; Some "A"])
    [TextCarousel.Tick 0; TextCarousel.Click; TextCarousel.Tick 0]
  = TextCarousel.mount [None; Some "A"].
Proof.
  split; [reflexivity|].
  apply (single_snippet_never_rearms [None; Some "A"]); [reflexivity|].
  apply List.Forall_cons; [right; exists 0; reflexivity|].
  apply List.Forall_cons; [left; reflexivity|].
  apply List.Forall_cons; [right; exists 0; reflexivity|].
  apply List.Forall_nil.
Defined.
